(** * Task Management API: a shallow embedding of [src/main.py]

    The service is a FastAPI application over two PostgreSQL tables.  The
    embedding keeps the shape of the Python source:

    - the two tables of [init_db] are lists of rows, with the column widths
      of the [CREATE TABLE] statements ([VARCHAR(n)]) enforced on every write
      and SQL's null-aware aggregates ([COUNT], [SUM]);
    - every handler is a computation in a small state-and-exception monad
      over the "world" (database contents and the open connections), written
      statement by statement after the Python body;
    - the queries that the source assembles at run time ([get_tasks],
      [update_task]) are assembled here as lists of conditions and
      assignments, clause by clause;
    - PyJWT and passlib are outside the repository: the token codec is
      modelled over an abstract MAC, password hashing over abstract
      [get_password_hash] / [verify_password].

    Instants and durations are integers (whole seconds).  Writes are applied
    to the tables when the statement runs: every write in the source is
    followed by [conn.commit()] before anything else can fail, so the
    transaction boundary is not observable.

    Strings are sequences of bytes, read as UTF-8 where PostgreSQL reads
    them so ([VARCHAR(n)] counts characters).  A statement fails

    - before it is sent, when psycopg2 cannot pass one of its string
      parameters on (a NUL character; bytes that are not UTF-8);
    - when a value is wider than its [VARCHAR(n)] column (the excess not
      being spaces only);
    - when a [SERIAL] sequence has handed out its last value, 2147483647;
    - on a violated UNIQUE or foreign key constraint, after the row has
      taken its id: the sequence keeps the value that the failed row
      consumed.

    Request bodies carry members of the declared types (what Pydantic has
    to decide is presence, absence and null), and the body of [/register] is
    taken as already validated. *)

From Stdlib Require Import ZArith Ascii.
From stdpp Require Import base sorting numbers strings list.

Local Open Scope Z_scope.

(** ** Rows of the two tables ([init_db], lines 94-120) *)

Module User.
Record row := mk {
  id : Z;
  email : string;
  username : string;
  full_name : option string;
  hashed_password : string;
  is_active : bool;
  created_at : Z
}.
End User.

Module Task.
(** [priority] and [status] carry no NOT NULL constraint in the schema, but
    the response model [Task] declares them [str] and no handler ever
    writes NULL into them, so they are plain strings here. *)
Record row := mk {
  id : Z;
  user_id : Z;
  title : string;
  description : option string;
  priority : string;
  status : string;
  due_date : option Z;
  created_at : Z;
  updated_at : Z
}.
End Task.

#[global] Instance user_row_eq_dec : EqDecision User.row.
Proof. solve_decision. Defined.

#[global] Instance task_row_eq_dec : EqDecision Task.row.
Proof. solve_decision. Defined.

Record database := mkDatabase {
  users : list User.row;
  tasks : list Task.row;
  users_id_seq : Z;   (* last value handed out by [users.id SERIAL] *)
  tasks_id_seq : Z    (* last value handed out by [tasks.id SERIAL] *)
}.

(** The world a request runs in: the tables and the handles of the
    connections that are currently open. *)
Record world := mkWorld {
  db : database;
  conns : list nat
}.

(** [init_db] on a fresh server: both tables exist and are empty. *)
Definition init_db : database :=
  {| users := []; tasks := []; users_id_seq := 0; tasks_id_seq := 0 |}.

Definition startup : world := {| db := init_db; conns := [] |}.

(** ** Pydantic request models (lines 43-72) *)

(** A member of a JSON request body: left out, sent as [null], or sent with
    a value of the declared type. *)
Inductive field (A : Type) : Type :=
  | Absent
  | Null
  | Value (a : A).
Arguments Absent {A}.
Arguments Null {A}.
Arguments Value {A} a.

(** [Optional[T] = None]: both a missing member and an explicit null give
    [None]. *)
Definition optional {A} (f : field A) : option A :=
  match f with
  | Absent | Null => None
  | Value a => Some a
  end.

(** [T] without default: the member must be present and not null. *)
Definition required {A} (f : field A) : option A :=
  match f with
  | Value a => Some a
  | Absent | Null => None
  end.

(** [T = d]: the default fills in a missing member; null is not a [T]. *)
Definition defaulted {A} (d : A) (f : field A) : option A :=
  match f with
  | Absent => Some d
  | Value a => Some a
  | Null => None
  end.

Module UserCreate.
Record t := mk {
  email : string;
  username : string;
  password : string;
  full_name : option string
}.
End UserCreate.

Module TaskCreate.
Record body := mkBody {
  b_title : field string;
  b_description : field string;
  b_priority : field string;
  b_due_date : field Z
}.
Record t := mk {
  title : string;
  description : option string;
  priority : string;
  due_date : option Z
}.
(** Validation of the body against the model; [None] is the 422 answer. *)
Definition parse (b : body) : option t :=
  match required (b_title b), defaulted "medium" (b_priority b) with
  | Some ti, Some pr =>
      Some {| title := ti; description := optional (b_description b);
              priority := pr; due_date := optional (b_due_date b) |}
  | _, _ => None
  end.
End TaskCreate.

Module TaskUpdate.
Record body := mkBody {
  b_title : field string;
  b_description : field string;
  b_priority : field string;
  b_status : field string;
  b_due_date : field Z
}.
Record t := mk {
  title : option string;
  description : option string;
  priority : option string;
  status : option string;
  due_date : option Z
}.
(** Every member is [Optional[...] = None]: validation cannot fail on a
    body whose members have the declared types. *)
Definition parse (b : body) : option t :=
  Some {| title := optional (b_title b);
          description := optional (b_description b);
          priority := optional (b_priority b);
          status := optional (b_status b);
          due_date := optional (b_due_date b) |}.
End TaskUpdate.

(** ** The handler monad: state of the world plus Python exceptions *)

Inductive exn : Type :=
  | HTTPException (status_code : Z) (detail : string)
                  (headers : list (string * string))
  | RequestValidationError
  | ValueError (message : string)
  | DatabaseError (pgerror : string).

Inductive result (A : Type) : Type :=
  | Return (a : A)
  | Raise (e : exn).
Arguments Return {A} a.
Arguments Raise {A} e.

Definition handler (A : Type) : Type := world → result A * world.

#[global] Instance handler_ret : MRet handler :=
  λ A a w, (Return a, w).

#[global] Instance handler_bind : MBind handler :=
  λ A B f m w,
    match m w with
    | (Return a, w') => f a w'
    | (Raise e, w') => (Raise e, w')
    end.

Definition raise {A} (e : exn) : handler A := λ w, (Raise e, w).

(** ** Connections ([get_db_connection], [conn.close()]) *)

Definition fresh_handle (cs : list nat) : nat := S (foldr Nat.max 0%nat cs).

Definition get_db_connection : handler nat :=
  λ w, let c := fresh_handle (conns w) in
       (Return c, {| db := db w; conns := c :: conns w |}).

Definition conn_close (c : nat) : handler unit :=
  λ w, (Return tt, {| db := db w; conns := filter (λ c', c' ≠ c) (conns w) |}).

(** [conn.commit()]: see the note on transactions at the top. *)
Definition conn_commit (c : nat) : handler unit := mret tt.

(** [cur.close()] releases only client-side state. *)
Definition cur_close : handler unit := mret tt.

(** ** SQL values and column types *)

(** A string stands for the Python [str] whose UTF-8 encoding it is.

    psycopg2 adapts every query parameter on the client before the
    statement is sent: a string must encode to UTF-8 (no lone surrogate)
    and must not contain the character NUL, or [cur.execute] raises. *)

Definition code (c : ascii) : nat := nat_of_ascii c.

Definition between (lo hi x : nat) : bool := (lo <=? x)%nat && (x <=? hi)%nat.

Definition continuation (c : ascii) : bool := between 128 191 (code c).

(** Well-formed byte sequences of two, three and four bytes. *)
Definition two_bytes (a b : ascii) : bool :=
  between 194 223 (code a) && continuation b.

Definition three_bytes (a b c : ascii) : bool :=
  ((code a =? 224)%nat && between 160 191 (code b) && continuation c)
  || (between 225 236 (code a) && continuation b && continuation c)
  || ((code a =? 237)%nat && between 128 159 (code b) && continuation c)
  || (between 238 239 (code a) && continuation b && continuation c).

Definition four_bytes (a b c d : ascii) : bool :=
  ((code a =? 240)%nat && between 144 191 (code b) && continuation c
   && continuation d)
  || (between 241 243 (code a) && continuation b && continuation c
      && continuation d)
  || ((code a =? 244)%nat && between 128 143 (code b) && continuation c
      && continuation d).

Fixpoint well_formed (s : string) : bool :=
  match s with
  | EmptyString => true
  | String a s1 =>
      if (code a <=? 127)%nat then well_formed s1
      else
        match s1 with
        | EmptyString => false
        | String b s2 =>
            if two_bytes a b then well_formed s2
            else
              match s2 with
              | EmptyString => false
              | String c s3 =>
                  if three_bytes a b c then well_formed s3
                  else
                    match s3 with
                    | EmptyString => false
                    | String d s4 => four_bytes a b c d && well_formed s4
                    end
              end
        end
  end.

Fixpoint has_nul (s : string) : bool :=
  match s with
  | EmptyString => false
  | String c s' => (code c =? 0)%nat || has_nul s'
  end.

(** The parameter can be put into a statement. *)
Definition adaptable (s : string) : bool := well_formed s && negb (has_nul s).

Definition all_adaptable (params : list string) : bool := forallb adaptable params.

(** The number of characters: every byte but the continuation bytes starts
    one. *)
Fixpoint char_length (s : string) : nat :=
  match s with
  | EmptyString => O
  | String c s' => if continuation c then char_length s'
                   else S (char_length s')
  end.

(** The first [n] characters and the rest. *)
Fixpoint split_chars (n : nat) (s : string) : string * string :=
  match s with
  | EmptyString => (EmptyString, EmptyString)
  | String c s' =>
      if continuation c then
        let (kept, rest) := split_chars n s' in (String c kept, rest)
      else
        match n with
        | O => (EmptyString, s)
        | S n' => let (kept, rest) := split_chars n' s' in (String c kept, rest)
        end
  end.

(** [VARCHAR(n)] on assignment: a string of more than [n] characters is an
    error unless the excess is all spaces, in which case it is cut to [n]
    characters. *)
Fixpoint all_spaces (s : string) : bool :=
  match s with
  | EmptyString => true
  | String c s' => if decide (c = " "%char) then all_spaces s' else false
  end.

Definition varchar (n : nat) (s : string) : option string :=
  if decide (char_length s ≤ n)%nat then Some s
  else let (kept, excess) := split_chars n s in
       if all_spaces excess then Some kept else None.

(** [SERIAL]: the sequence of an [integer] key stops at its last value. *)
Definition max_serial : Z := 2147483647.

(** Three-valued logic: [None] is SQL's unknown. *)
Definition sql_lt (a : option Z) (b : Z) : option bool :=
  match a with
  | None => None
  | Some x => Some (bool_decide (x < b))
  end.

Definition sql_and (a b : option bool) : option bool :=
  match a, b with
  | Some false, _ | _, Some false => Some false
  | Some true, Some true => Some true
  | _, _ => None
  end.

(** [CASE WHEN c THEN 1 ELSE 0 END]: only a true condition takes the
    [THEN] branch. *)
Definition case_when (c : option bool) : Z :=
  match c with
  | Some true => 1
  | _ => 0
  end.

(** [SUM] over no rows is NULL; [COUNT( * )] over no rows is 0. *)
Definition sql_sum (l : list Z) : option Z :=
  match l with
  | [] => None
  | _ => Some (foldr Z.add 0 l)
  end.

Definition sql_count {A} (l : list A) : Z := Z.of_nat (length l).

(** Python's truth value of an [Optional[str]]: [None] and the empty string
    are both false. *)
Definition truthy (s : option string) : bool :=
  match s with
  | None => false
  | Some s' => bool_decide (s' ≠ EmptyString)
  end.

(** ** Running statements on a cursor *)

(** [cur.execute(query, params)]: a statement maps the tables to its
    result set, or raises, and to the tables afterwards.  A statement that
    raises leaves every row as it was; an INSERT that fails on a constraint
    has by then drawn its key from the sequence, and the sequence does not
    give it back. *)
Definition statement (A : Type) : Type := database → result A * database.

Definition execute {A} (stmt : statement A) : handler A :=
  λ w, let (r, d') := stmt (db w) in (r, {| db := d'; conns := conns w |}).

(** What [cur.execute] raises.  A string that does not encode raises
    [UnicodeEncodeError], which is a [ValueError] as well; the message does
    not reach the client. *)
Definition not_adaptable : exn :=
  ValueError "A string literal cannot contain NUL (0x00) characters.".
Definition value_too_long : exn :=
  DatabaseError "value too long for type character varying".
Definition sequence_exhausted : exn :=
  DatabaseError "nextval: reached maximum value of sequence".
Definition unique_violation : exn :=
  DatabaseError "duplicate key value violates unique constraint".
Definition foreign_key_violation : exn :=
  DatabaseError "insert or update on table violates foreign key constraint".

(** The string parameters of a statement are adapted before anything is
    sent. *)
Definition with_params {A} (params : list string) (stmt : statement A)
  : statement A :=
  λ d, if all_adaptable params then stmt d else (Raise not_adaptable, d).

Definition fetchone {A} (rows : list A) : option A := head rows.
Definition fetchall {A} (rows : list A) : list A := rows.

(** ** Statements on [tasks] *)

(** The conjuncts that occur in the WHERE clauses of the source. *)
Inductive cond : Type :=
  | IdEq (v : Z)
  | UserIdEq (v : Z)
  | StatusEq (v : string)
  | PriorityEq (v : string).

Definition holds (t : Task.row) (c : cond) : Prop :=
  match c with
  | IdEq v => Task.id t = v
  | UserIdEq v => Task.user_id t = v
  | StatusEq v => Task.status t = v
  | PriorityEq v => Task.priority t = v
  end.

#[global] Instance holds_dec t c : Decision (holds t c).
Proof. destruct c; simpl; apply _. Defined.

(** [WHERE c1 AND c2 AND ...] *)
Definition matches (cs : list cond) (t : Task.row) : Prop := Forall (holds t) cs.

#[global] Instance matches_dec cs t : Decision (matches cs t).
Proof. unfold matches; apply _. Defined.

(** The string parameters of a WHERE clause. *)
Fixpoint cond_strings (cs : list cond) : list string :=
  match cs with
  | [] => []
  | StatusEq v :: cs' | PriorityEq v :: cs' => v :: cond_strings cs'
  | IdEq _ :: cs' | UserIdEq _ :: cs' => cond_strings cs'
  end.

(** [SELECT * FROM tasks WHERE cs] *)
Definition select_tasks (cs : list cond) : statement (list Task.row) :=
  with_params (cond_strings cs)
    (λ d, (Return (filter (matches cs) (tasks d)), d)).

(** [ORDER BY created_at DESC] *)
Definition newer_first (a b : Task.row) : Prop :=
  Task.created_at b ≤ Task.created_at a.

#[global] Instance newer_first_dec a b : Decision (newer_first a b).
Proof. unfold newer_first; apply _. Defined.

#[global] Instance newer_first_total : Total newer_first.
Proof. intros a b. unfold newer_first. lia. Qed.

Definition select_tasks_order_by_created_at_desc (cs : list cond)
  : statement (list Task.row) :=
  with_params (cond_strings cs)
    (λ d, (Return (merge_sort newer_first (filter (matches cs) (tasks d))), d)).

(** The SET clauses that [update_task] can emit. *)
Inductive assignment : Type :=
  | SetTitle (v : string)
  | SetDescription (v : string)
  | SetPriority (v : string)
  | SetStatus (v : string)
  | SetDueDate (v : Z)
  | SetUpdatedAtNow.

(** The string parameters of a SET list. *)
Fixpoint assignment_strings (sets : list assignment) : list string :=
  match sets with
  | [] => []
  | SetTitle v :: sets' | SetDescription v :: sets' | SetPriority v :: sets'
  | SetStatus v :: sets' => v :: assignment_strings sets'
  | SetDueDate _ :: sets' | SetUpdatedAtNow :: sets' => assignment_strings sets'
  end.

(** The value of a SET clause is coerced to the type of its column. *)
Definition coerce (a : assignment) : option assignment :=
  match a with
  | SetTitle v => SetTitle <$> varchar 255 v
  | SetPriority v => SetPriority <$> varchar 20 v
  | SetStatus v => SetStatus <$> varchar 20 v
  | SetDescription _ | SetDueDate _ | SetUpdatedAtNow => Some a
  end.

Definition assign (now : Z) (t : Task.row) (a : assignment) : Task.row :=
  match a with
  | SetTitle v =>
      Task.mk (Task.id t) (Task.user_id t) v (Task.description t)
              (Task.priority t) (Task.status t) (Task.due_date t)
              (Task.created_at t) (Task.updated_at t)
  | SetDescription v =>
      Task.mk (Task.id t) (Task.user_id t) (Task.title t) (Some v)
              (Task.priority t) (Task.status t) (Task.due_date t)
              (Task.created_at t) (Task.updated_at t)
  | SetPriority v =>
      Task.mk (Task.id t) (Task.user_id t) (Task.title t) (Task.description t)
              v (Task.status t) (Task.due_date t)
              (Task.created_at t) (Task.updated_at t)
  | SetStatus v =>
      Task.mk (Task.id t) (Task.user_id t) (Task.title t) (Task.description t)
              (Task.priority t) v (Task.due_date t)
              (Task.created_at t) (Task.updated_at t)
  | SetDueDate v =>
      Task.mk (Task.id t) (Task.user_id t) (Task.title t) (Task.description t)
              (Task.priority t) (Task.status t) (Some v)
              (Task.created_at t) (Task.updated_at t)
  | SetUpdatedAtNow =>
      Task.mk (Task.id t) (Task.user_id t) (Task.title t) (Task.description t)
              (Task.priority t) (Task.status t) (Task.due_date t)
              (Task.created_at t) now
  end.

Definition with_tasks (d : database) (ts : list Task.row) : database :=
  {| users := users d; tasks := ts;
     users_id_seq := users_id_seq d; tasks_id_seq := tasks_id_seq d |}.

(** [UPDATE tasks SET sets WHERE cs RETURNING *] at instant [now]. *)
Definition update_tasks (now : Z) (sets : list assignment) (cs : list cond)
  : statement (list Task.row) :=
  with_params (assignment_strings sets ++ cond_strings cs)
    (λ d,
       match mapM coerce sets with
       | Some sets' =>
           let set_row t := foldl (assign now) t sets' in
           (Return (set_row <$> filter (matches cs) (tasks d)),
            with_tasks d ((λ t, if decide (matches cs t) then set_row t else t)
                            <$> tasks d))
       | None => (Raise value_too_long, d)
       end).

(** [DELETE FROM tasks WHERE cs RETURNING id] *)
Definition delete_tasks (cs : list cond) : statement (list Z) :=
  with_params (cond_strings cs)
    (λ d, (Return (Task.id <$> filter (matches cs) (tasks d)),
           with_tasks d (filter (λ t, ¬ matches cs t) (tasks d)))).

Definition with_tasks_id_seq (d : database) (v : Z) : database :=
  {| users := users d; tasks := tasks d;
     users_id_seq := users_id_seq d; tasks_id_seq := v |}.

(** [INSERT INTO tasks (user_id, title, description, priority, due_date)
    VALUES (...) RETURNING *]: the values are coerced to their columns when
    the statement is planned; the key is then drawn from the sequence,
    [status] and both timestamps take their defaults, and the owner must
    exist (foreign key), or the row is not kept. *)
Definition insert_task (now : Z) (user_id : Z) (title : string)
    (description : option string) (priority : string) (due_date : option Z)
  : statement (list Task.row) :=
  with_params ([title] ++ option_list description ++ [priority])
    (λ d,
       match varchar 255 title, varchar 20 priority with
       | Some title', Some priority' =>
           if decide (tasks_id_seq d < max_serial) then
             let id := tasks_id_seq d + 1 in
             let r := Task.mk id user_id title' description priority' "pending"
                              due_date now now in
             if decide (user_id ∈ User.id <$> users d) then
               (Return [r],
                {| users := users d; tasks := tasks d ++ [r];
                   users_id_seq := users_id_seq d; tasks_id_seq := id |})
             else (Raise foreign_key_violation, with_tasks_id_seq d id)
           else (Raise sequence_exhausted, d)
       | _, _ => (Raise value_too_long, d)
       end).

(** The single row of the aggregate query of [get_task_statistics]. *)
Record stats := mkStats {
  total_tasks : Z;
  completed : option Z;
  in_progress : option Z;
  pending : option Z;
  high_priority : option Z;
  overdue : option Z
}.

Definition sql_eq_str (a b : string) : option bool := Some (bool_decide (a = b)).
Definition sql_ne_str (a b : string) : option bool := Some (bool_decide (a ≠ b)).

Definition select_statistics (now : Z) (user_id : Z) : statement (list stats) :=
  λ d,
    let rows := filter (matches [UserIdEq user_id]) (tasks d) in
    let sum_case (c : Task.row → option bool) :=
      sql_sum ((λ t, case_when (c t)) <$> rows) in
    (Return [ {| total_tasks := sql_count rows;
               completed := sum_case (λ t, sql_eq_str (Task.status t) "completed");
               in_progress := sum_case (λ t, sql_eq_str (Task.status t) "in_progress");
               pending := sum_case (λ t, sql_eq_str (Task.status t) "pending");
               high_priority := sum_case (λ t, sql_eq_str (Task.priority t) "high");
               overdue := sum_case (λ t,
                 sql_and (sql_lt (Task.due_date t) now)
                         (sql_ne_str (Task.status t) "completed")) |} ],
     d).

(** ** Task endpoints (lines 245-403)

    Each handler receives [current_user], the row that the dependency
    [get_current_user] resolved from the bearer token. *)

Definition task_not_found : exn := HTTPException 404 "Task not found" [].

Definition create_task (now : Z) (task : TaskCreate.t) (current_user : User.row)
  : handler (option Task.row) :=
  conn ← get_db_connection;
  rows ← execute (insert_task now (User.id current_user)
                    (TaskCreate.title task) (TaskCreate.description task)
                    (TaskCreate.priority task) (TaskCreate.due_date task));
  let new_task := fetchone rows in
  conn_commit conn;;
  cur_close;;
  conn_close conn;;
  mret new_task.

(** [if param: query += " AND col = %s"] *)
Definition and_if (param : option string) (col : string → cond)
    (query : list cond) : list cond :=
  match param with
  | Some v => if truthy param then query ++ [col v] else query
  | None => query
  end.

Definition get_tasks (status priority : option string) (current_user : User.row)
  : handler (list Task.row) :=
  conn ← get_db_connection;
  let query := [UserIdEq (User.id current_user)] in
  let query := and_if status StatusEq query in
  let query := and_if priority PriorityEq query in
  rows ← execute (select_tasks_order_by_created_at_desc query);
  let tasks := fetchall rows in
  cur_close;;
  conn_close conn;;
  mret tasks.

Definition get_task (task_id : Z) (current_user : User.row) : handler Task.row :=
  conn ← get_db_connection;
  rows ← execute (select_tasks [IdEq task_id; UserIdEq (User.id current_user)]);
  let task := fetchone rows in
  cur_close;;
  conn_close conn;;
  match task with
  | None => raise task_not_found
  | Some t => mret t
  end.

(** [if task_update.f is not None: update_fields.append("f = %s")], in the
    order of the source, then the timestamp clause. *)
Definition set_if {A} (v : option A) (clause : A → assignment)
  : list assignment :=
  match v with
  | Some x => [clause x]
  | None => []
  end.

Definition update_fields (task_update : TaskUpdate.t) : list assignment :=
  set_if (TaskUpdate.title task_update) SetTitle
  ++ set_if (TaskUpdate.description task_update) SetDescription
  ++ set_if (TaskUpdate.priority task_update) SetPriority
  ++ set_if (TaskUpdate.status task_update) SetStatus
  ++ set_if (TaskUpdate.due_date task_update) SetDueDate
  ++ [SetUpdatedAtNow].

Definition update_task (now : Z) (task_id : Z) (task_update : TaskUpdate.t)
    (current_user : User.row) : handler (option Task.row) :=
  conn ← get_db_connection;
  rows ← execute (select_tasks [IdEq task_id; UserIdEq (User.id current_user)]);
  let existing_task := fetchone rows in
  match existing_task with
  | None =>
      cur_close;;
      conn_close conn;;
      raise task_not_found
  | Some _ =>
      rows ← execute (update_tasks now (update_fields task_update)
                        [IdEq task_id; UserIdEq (User.id current_user)]);
      let updated_task := fetchone rows in
      conn_commit conn;;
      cur_close;;
      conn_close conn;;
      mret updated_task
  end.

Definition delete_task (task_id : Z) (current_user : User.row) : handler unit :=
  conn ← get_db_connection;
  rows ← execute (delete_tasks [IdEq task_id; UserIdEq (User.id current_user)]);
  let deleted := fetchone rows in
  conn_commit conn;;
  cur_close;;
  conn_close conn;;
  match deleted with
  | None => raise task_not_found
  | Some _ => mret tt
  end.

Definition get_task_statistics (now : Z) (current_user : User.row)
  : handler (option stats) :=
  conn ← get_db_connection;
  rows ← execute (select_statistics now (User.id current_user));
  let stats := fetchone rows in
  cur_close;;
  conn_close conn;;
  mret stats.

(** ** Statements on [users] *)

(** [SELECT * FROM users WHERE id = %s] *)
Definition select_user_by_id (id : Z) : statement (list User.row) :=
  λ d, (Return (filter (λ u, User.id u = id) (users d)), d).

(** [SELECT * FROM users WHERE username = %s] *)
Definition select_user_by_username (username : string)
  : statement (list User.row) :=
  with_params [username]
    (λ d, (Return (filter (λ u, User.username u = username) (users d)), d)).

(** [SELECT id FROM users WHERE email = %s OR username = %s] *)
Definition select_id_by_email_or_username (email username : string)
  : statement (list Z) :=
  with_params [email; username]
    (λ d, (Return (User.id <$> filter (λ u, User.email u = email
                                            ∨ User.username u = username)
                                      (users d)),
           d)).

Definition varchar_or_null (n : nat) (v : option string)
  : option (option string) :=
  match v with
  | None => Some None
  | Some s => Some <$> varchar n s
  end.

Definition with_users_id_seq (d : database) (v : Z) : database :=
  {| users := users d; tasks := tasks d;
     users_id_seq := v; tasks_id_seq := tasks_id_seq d |}.

(** [INSERT INTO users (email, username, full_name, hashed_password)
    VALUES (...) RETURNING *]: the values are coerced to their columns when
    the statement is planned; the key is then drawn from the sequence,
    [is_active] and [created_at] take their defaults, and the two UNIQUE
    constraints are checked on the coerced values, or the row is not
    kept. *)
Definition insert_user (now : Z) (email username : string)
    (full_name : option string) (hashed_password : string)
  : statement (list User.row) :=
  with_params ([email; username] ++ option_list full_name ++ [hashed_password])
    (λ d,
       match varchar 255 email, varchar 100 username,
             varchar_or_null 255 full_name, varchar 255 hashed_password with
       | Some email', Some username', Some full_name', Some hashed' =>
           if decide (users_id_seq d < max_serial) then
             let id := users_id_seq d + 1 in
             let r := User.mk id email' username' full_name' hashed' true now in
             if decide ((email' ∉ User.email <$> users d)
                        ∧ (username' ∉ User.username <$> users d)) then
               (Return [r],
                {| users := users d ++ [r]; tasks := tasks d;
                   users_id_seq := id; tasks_id_seq := tasks_id_seq d |})
             else (Raise unique_violation, with_users_id_seq d id)
           else (Raise sequence_exhausted, d)
       | _, _, _, _ => (Raise value_too_long, d)
       end).

(** ** Tokens (PyJWT) *)

(** The claims the service puts into and reads from a token. *)
Record payload := mkPayload {
  sub : option Z;
  exp : option Z
}.

(** A bearer string either does not parse as a compact JWS, or carries a
    header algorithm, a claim set and a signature. *)
Inductive token : Type :=
  | Malformed (raw : string)
  | Jws (alg : string) (claims : payload) (signature : Z).

Inductive PyJWTError : Type :=
  | DecodeError
  | InvalidAlgorithmError
  | InvalidSignatureError
  | ExpiredSignatureError.

(** Configuration (lines 14-17) *)
Definition SECRET_KEY : string := "your-secret-key-here-change-in-production".
Definition ALGORITHM : string := "HS256".
Definition ACCESS_TOKEN_EXPIRE_MINUTES : Z := 30.
Definition REFRESH_TOKEN_EXPIRE_DAYS : Z := 7.

(** [timedelta(minutes=n)], [timedelta(days=n)] in seconds *)
Definition minutes (n : Z) : Z := 60 * n.
Definition days (n : Z) : Z := 86400 * n.

Definition credentials_exception : exn :=
  HTTPException 401 "Could not validate credentials"
                [("WWW-Authenticate", "Bearer")].

Record Token := mkToken {
  access_token : token;
  refresh_token : token;
  token_type : string
}.

Section Credentials.

(** passlib's [pwd_context.hash] and [pwd_context.verify] *)
Variable get_password_hash : string → string.
Variable verify_password : string → string → bool.

(** The MAC of a signing input (header algorithm and claims) under a key *)
Variable mac : string → string → payload → Z.

Definition jwt_encode (claims : payload) (key algorithm : string) : token :=
  Jws algorithm claims (mac key algorithm claims).

(** [jwt.decode(token, key, algorithms=[...])] at instant [now]: the
    signature is checked before the registered claims; a token is expired
    from the instant [exp] on.  The other claims are handed back as they
    were encoded ([sub] is the integer user id that [login] put there). *)
Definition jwt_decode (now : Z) (t : token) (key : string)
    (algorithms : list string) : PyJWTError + payload :=
  match t with
  | Malformed _ => inl DecodeError
  | Jws alg claims signature =>
      if decide (alg ∈ algorithms) then
        if decide (signature = mac key alg claims) then
          match exp claims with
          | Some e => if decide (e ≤ now) then inl ExpiredSignatureError
                      else inr claims
          | None => inr claims
          end
        else inl InvalidSignatureError
      else inl InvalidAlgorithmError
  end.

(** [to_encode = data.copy(); to_encode.update({"exp": expire})] *)
Definition with_exp (data : payload) (expire : Z) : payload :=
  {| sub := sub data; exp := Some expire |}.

(** [if expires_delta:] is false for [None] and for a zero [timedelta]. *)
Definition create_access_token (now : Z) (data : payload)
    (expires_delta : option Z) : token :=
  let to_encode := data in
  let expire :=
    match expires_delta with
    | Some delta => if decide (delta ≠ 0) then now + delta
                    else now + minutes 15
    | None => now + minutes 15
    end in
  let to_encode := with_exp to_encode expire in
  jwt_encode to_encode SECRET_KEY ALGORITHM.

Definition create_refresh_token (now : Z) (data : payload) : token :=
  let to_encode := data in
  let expire := now + days REFRESH_TOKEN_EXPIRE_DAYS in
  let to_encode := with_exp to_encode expire in
  jwt_encode to_encode SECRET_KEY ALGORITHM.

Definition get_current_user (now : Z) (t : token) : handler User.row :=
  match jwt_decode now t SECRET_KEY [ALGORITHM] with
  | inl _ => raise credentials_exception
  | inr payload =>
      match sub payload with
      | None => raise credentials_exception
      | Some user_id =>
          conn ← get_db_connection;
          rows ← execute (select_user_by_id user_id);
          let user := fetchone rows in
          cur_close;;
          conn_close conn;;
          match user with
          | None => raise credentials_exception
          | Some u => mret u
          end
      end
  end.

(** ** Authentication endpoints (lines 181-242) *)

Definition register (now : Z) (user : UserCreate.t)
  : handler (option User.row) :=
  conn ← get_db_connection;
  rows ← execute (select_id_by_email_or_username
                    (UserCreate.email user) (UserCreate.username user));
  match fetchone rows with
  | Some _ =>
      cur_close;;
      conn_close conn;;
      raise (HTTPException 400 "Email or username already registered" [])
  | None =>
      let hashed_password := get_password_hash (UserCreate.password user) in
      rows ← execute (insert_user now (UserCreate.email user)
                        (UserCreate.username user)
                        (UserCreate.full_name user) hashed_password);
      let new_user := fetchone rows in
      conn_commit conn;;
      cur_close;;
      conn_close conn;;
      mret new_user
  end.

Definition login (now : Z) (username password : string) : handler Token :=
  conn ← get_db_connection;
  rows ← execute (select_user_by_username username);
  let user := fetchone rows in
  cur_close;;
  conn_close conn;;
  match user with
  | Some u =>
      if verify_password password (User.hashed_password u) then
        let access_token_expires := minutes ACCESS_TOKEN_EXPIRE_MINUTES in
        let access_token :=
          create_access_token now {| sub := Some (User.id u); exp := None |}
                              (Some access_token_expires) in
        let refresh_token :=
          create_refresh_token now {| sub := Some (User.id u); exp := None |} in
        mret {| access_token := access_token;
                refresh_token := refresh_token;
                token_type := "bearer" |}
      else
        raise (HTTPException 401 "Incorrect username or password"
                             [("WWW-Authenticate", "Bearer")])
  | None =>
      raise (HTTPException 401 "Incorrect username or password"
                           [("WWW-Authenticate", "Bearer")])
  end.

Definition read_users_me (current_user : User.row) : handler User.row :=
  mret current_user.

End Credentials.

(** ** The application: routing, dependencies, response models *)

Inductive request : Type :=
  | POST_register (user : UserCreate.t)
  | POST_token (username password : string)
  | GET_users_me (authorization : option token)
  | POST_tasks (authorization : option token) (body : TaskCreate.body)
  | GET_tasks (authorization : option token) (status priority : option string)
  | GET_task (authorization : option token) (task_id : Z)
  | PUT_task (authorization : option token) (task_id : Z)
             (body : TaskUpdate.body)
  | DELETE_task (authorization : option token) (task_id : Z)
  | GET_tasks_stats_summary (authorization : option token).

Inductive content : Type :=
  | UserJson (id : Z) (email username : string) (full_name : option string)
             (created_at : Z)
  | TokenJson (t : Token)
  | TaskJson (t : Task.row)
  | TaskListJson (ts : list Task.row)
  | StatsJson (s : option stats)
  | DetailJson (detail : string)
  | Empty.

Record response := mkResponse {
  status_code : Z;
  headers : list (string * string);
  body : content
}.

(** [response_model=User]: only the declared members are serialised. *)
Definition user_out (u : User.row) : content :=
  UserJson (User.id u) (User.email u) (User.username u) (User.full_name u)
           (User.created_at u).

Definition internal_server_error : response :=
  mkResponse 500 [] (DetailJson "Internal Server Error").

Definition unprocessable : response :=
  mkResponse 422 [] (DetailJson "Unprocessable Entity").

(** A handler's outcome as an HTTP response: the value goes through the
    response model ([None] where a record is declared does not validate),
    an [HTTPException] keeps its code, detail and headers, anything else is
    an unhandled server error. *)
Definition respond {A} (success : Z) (model : A → option content)
    (r : result A) : response :=
  match r with
  | Return a =>
      match model a with
      | Some c => mkResponse success [] c
      | None => internal_server_error
      end
  | Raise (HTTPException code detail hs) => mkResponse code hs (DetailJson detail)
  | Raise RequestValidationError => unprocessable
  | Raise (ValueError _) | Raise (DatabaseError _) => internal_server_error
  end.

Section Application.

Variable get_password_hash : string → string.
Variable verify_password : string → string → bool.
Variable mac : string → string → payload → Z.

(** [Depends(get_current_user)] behind [OAuth2PasswordBearer]: a request
    without bearer credentials is refused before the dependency runs. *)
Definition authenticated {A} (now : Z) (authorization : option token)
    (k : User.row → handler A) : handler A :=
  match authorization with
  | None => raise (HTTPException 401 "Not authenticated"
                                 [("WWW-Authenticate", "Bearer")])
  | Some t => current_user ← get_current_user mac now t; k current_user
  end.

(** A body that does not validate against its model is answered 422
    without entering the handler. *)
Definition validated {A B} (parsed : option A) (k : A → handler B)
  : handler B :=
  match parsed with
  | Some a => k a
  | None => raise RequestValidationError
  end.

(** One request at instant [now]: dependencies first, then validation of
    the body, then the handler. *)
Definition handle (now : Z) (req : request) (w : world) : response * world :=
  match req with
  | POST_register user =>
      let (r, w') := register get_password_hash now user w in
      (respond 201 (fmap user_out) r, w')
  | POST_token username password =>
      let (r, w') := login verify_password mac now username password w in
      (respond 200 (λ t, Some (TokenJson t)) r, w')
  | GET_users_me auth =>
      let (r, w') := authenticated now auth read_users_me w in
      (respond 200 (λ u, Some (user_out u)) r, w')
  | POST_tasks auth body =>
      let (r, w') :=
        authenticated now auth (λ current_user,
          validated (TaskCreate.parse body) (λ task,
            create_task now task current_user)) w in
      (respond 201 (fmap TaskJson) r, w')
  | GET_tasks auth status priority =>
      let (r, w') := authenticated now auth (get_tasks status priority) w in
      (respond 200 (λ ts, Some (TaskListJson ts)) r, w')
  | GET_task auth task_id =>
      let (r, w') := authenticated now auth (get_task task_id) w in
      (respond 200 (λ t, Some (TaskJson t)) r, w')
  | PUT_task auth task_id body =>
      let (r, w') :=
        authenticated now auth (λ current_user,
          validated (TaskUpdate.parse body) (λ task_update,
            update_task now task_id task_update current_user)) w in
      (respond 200 (fmap TaskJson) r, w')
  | DELETE_task auth task_id =>
      let (r, w') := authenticated now auth (delete_task task_id) w in
      (respond 204 (λ _, Some Empty) r, w')
  | GET_tasks_stats_summary auth =>
      let (r, w') := authenticated now auth (get_task_statistics now) w in
      (respond 200 (λ s, Some (StatsJson s)) r, w')
  end.

End Application.

(** ** Primary keys

    [tasks.id] and [users.id] are SERIAL PRIMARY KEY: the rows of a table
    carry distinct keys, all of them already handed out by the sequence. *)

Record consistent (d : database) : Prop := mkConsistent {
  task_ids_distinct : NoDup (Task.id <$> tasks d);
  task_ids_issued : Forall (λ t, Task.id t ≤ tasks_id_seq d) (tasks d);
  user_ids_distinct : NoDup (User.id <$> users d);
  user_ids_issued : Forall (λ u, User.id u ≤ users_id_seq d) (users d)
}.

(** ** The properties' vocabulary *)

(** What a partial update describes: a supplied member replaces its column,
    an unsupplied member leaves the column alone, and [updated_at] becomes
    the current instant. *)
Definition partially_updated (now : Z) (task_update : TaskUpdate.t)
    (t : Task.row) : Task.row :=
  {| Task.id := Task.id t;
     Task.user_id := Task.user_id t;
     Task.title := default (Task.title t) (TaskUpdate.title task_update);
     Task.description :=
       match TaskUpdate.description task_update with
       | Some v => Some v
       | None => Task.description t
       end;
     Task.priority := default (Task.priority t) (TaskUpdate.priority task_update);
     Task.status := default (Task.status t) (TaskUpdate.status task_update);
     Task.due_date :=
       match TaskUpdate.due_date task_update with
       | Some v => Some v
       | None => Task.due_date t
       end;
     Task.created_at := Task.created_at t;
     Task.updated_at := now |}.

(** A supplied string has no more characters than its column. *)
Definition fits (n : nat) (v : option string) : Prop :=
  ∀ s, v = Some s → (char_length s ≤ n)%nat.

(** A supplied string can be put into a statement. *)
Definition sendable (v : option string) : Prop :=
  ∀ s, v = Some s → adaptable s = true.

Definition within_column_widths (task_update : TaskUpdate.t) : Prop :=
  fits 255 (TaskUpdate.title task_update)
  ∧ fits 20 (TaskUpdate.priority task_update)
  ∧ fits 20 (TaskUpdate.status task_update).

(** Every string an update supplies can be put into the UPDATE. *)
Definition adaptable_update (task_update : TaskUpdate.t) : Prop :=
  sendable (TaskUpdate.title task_update)
  ∧ sendable (TaskUpdate.description task_update)
  ∧ sendable (TaskUpdate.priority task_update)
  ∧ sendable (TaskUpdate.status task_update).

(** The same body with every explicit null left out instead. *)
Definition omit_null {A} (f : field A) : field A :=
  match f with
  | Null => Absent
  | _ => f
  end.

Definition nulls_omitted (b : TaskUpdate.body) : TaskUpdate.body :=
  {| TaskUpdate.b_title := omit_null (TaskUpdate.b_title b);
     TaskUpdate.b_description := omit_null (TaskUpdate.b_description b);
     TaskUpdate.b_priority := omit_null (TaskUpdate.b_priority b);
     TaskUpdate.b_status := omit_null (TaskUpdate.b_status b);
     TaskUpdate.b_due_date := omit_null (TaskUpdate.b_due_date b) |}.

(** The same row, where a description or due date that was set is still
    set. *)
Definition keeps_optionals (t t' : Task.row) : Prop :=
  Task.id t' = Task.id t
  ∧ (is_Some (Task.description t) → is_Some (Task.description t'))
  ∧ (is_Some (Task.due_date t) → is_Some (Task.due_date t')).

(** Counting rows with a property. *)
Definition count_where {A} (P : A → Prop) `{∀ x, Decision (P x)} (l : list A) : Z :=
  Z.of_nat (length (filter P l)).

Definition owned_by (user_id : Z) (t : Task.row) : Prop := Task.user_id t = user_id.

#[global] Instance owned_by_dec user_id t : Decision (owned_by user_id t).
Proof. unfold owned_by; apply _. Defined.

(** Overdue: a due date strictly before [now] and a status other than
    completed; a task without due date is not overdue. *)
Definition is_overdue (now : Z) (t : Task.row) : Prop :=
  match Task.due_date t with
  | Some d => d < now ∧ Task.status t ≠ "completed"
  | None => False
  end.

#[global] Instance is_overdue_dec now t : Decision (is_overdue now t).
Proof. unfold is_overdue; destruct (Task.due_date t); apply _. Defined.

(** The rows a listing is about.  An equality filter constrains a column
    when it was given ([given]), or when it was given and is not the empty
    string ([given_nonempty]). *)
Definition given (param : option string) (column : string) : Prop :=
  match param with
  | Some v => column = v
  | None => True
  end.

Definition given_nonempty (param : option string) (column : string) : Prop :=
  match param with
  | Some v => v ≠ EmptyString → column = v
  | None => True
  end.

#[global] Instance given_dec param column : Decision (given param column).
Proof. destruct param; simpl; apply _. Defined.

#[global] Instance given_nonempty_dec param column :
  Decision (given_nonempty param column).
Proof. destruct param; simpl; apply _. Defined.

Definition listed_as_given (user_id : Z) (status priority : option string)
    (t : Task.row) : Prop :=
  Task.user_id t = user_id
  ∧ given status (Task.status t)
  ∧ given priority (Task.priority t).

Definition listed (user_id : Z) (status priority : option string)
    (t : Task.row) : Prop :=
  Task.user_id t = user_id
  ∧ given_nonempty status (Task.status t)
  ∧ given_nonempty priority (Task.priority t).

#[global] Instance listed_as_given_dec user_id status priority t :
  Decision (listed_as_given user_id status priority t).
Proof. unfold listed_as_given; apply _. Defined.

#[global] Instance listed_dec user_id status priority t :
  Decision (listed user_id status priority t).
Proof. unfold listed; apply _. Defined.

(** The stored users with the active flag blanked out. *)
Definition without_active (u : User.row) : User.row :=
  User.mk (User.id u) (User.email u) (User.username u) (User.full_name u)
          (User.hashed_password u) true (User.created_at u).

Definition blank_active (w : world) : world :=
  {| db := {| users := without_active <$> users (db w);
              tasks := tasks (db w);
              users_id_seq := users_id_seq (db w);
              tasks_id_seq := tasks_id_seq (db w) |};
     conns := conns w |}.

Definition map_result {A B} (f : A → B) (r : result A) : result B :=
  match r with
  | Return a => Return (f a)
  | Raise e => Raise e
  end.

(** [h'] on the blanked world does what [h] does on the world itself, up to
    [f] on the value returned. *)
Definition blind {A} (f : A → A) (h' h : handler A) : Prop :=
  ∀ w, h' (blank_active w)
       = (map_result f (h w).1, blank_active (h w).2).

(** Two worlds that differ at most in [is_active] flags. *)
Definition same_but_active (w1 w2 : world) : Prop :=
  blank_active w1 = blank_active w2.

(** The instant at which an access token issued at [issued] with window
    [expires_delta] expires. *)
Definition access_expiry (issued : Z) (expires_delta : option Z) : Z :=
  match expires_delta with
  | Some delta => if decide (delta = 0) then issued + 900 else issued + delta
  | None => issued + 900
  end.

(** ** Sample data *)

Definition alice : User.row :=
  User.mk 1 "alice@example.org" "alice" None "#wonderland" true 0.
Definition bob : User.row :=
  User.mk 2 "bob@example.org" "bob" None "#builder" false 0.
Definition carol : User.row :=
  User.mk 3 "carol@example.org" "carol" None "#singer" true 0.

Definition report : Task.row :=
  Task.mk 1 1 "write report" None "medium" "pending" None 10 10.
Definition taxes : Task.row :=
  Task.mk 2 1 "file taxes" (Some "before april") "high" "completed" (Some 5) 20 20.
Definition groceries : Task.row :=
  Task.mk 3 2 "buy groceries" None "low" "pending" (Some 5) 30 30.

(** [alice] owns two tasks, [bob] one, [carol] none. *)
Definition sample : world :=
  {| db := {| users := [alice; bob; carol]; tasks := [report; taxes; groceries];
              users_id_seq := 3; tasks_id_seq := 3 |};
     conns := [] |}.

(** The sample world with every user active. *)
Definition sample_all_active : world :=
  {| db := {| users := [alice; without_active bob; carol];
              tasks := [report; taxes; groceries];
              users_id_seq := 3; tasks_id_seq := 3 |};
     conns := [] |}.

Fixpoint string_of (n : nat) (c : ascii) : string :=
  match n with
  | O => EmptyString
  | S n' => String c (string_of n' c)
  end.

(** Stand-ins for the library functions, to run whole requests. *)
Definition toy_hash (password : string) : string := String "#" password.
Definition toy_verify (password hashed : string) : bool :=
  bool_decide (hashed = toy_hash password).
Definition toy_mac (key alg : string) (claims : payload) : Z :=
  Z.of_nat (String.length key) + Z.of_nat (String.length alg)
  + default 0 (sub claims) + 2 * default 0 (exp claims).

(** A handler gives back the connection it took on every path that does
    not end in a failed statement. *)
Definition releases {A} (h : handler A) : Prop :=
  ∀ w, match (h w).1 with
       | Raise (DatabaseError _) | Raise (ValueError _) => True
       | _ => conns (h w).2 = conns w
       end.

(** A bearer token for the holder of user id [user_id], issued at instant 0
    for half an hour, under the stand-in MAC. *)
Definition toy_token (user_id : Z) : token :=
  create_access_token toy_mac 0 {| sub := Some user_id; exp := None |}
                      (Some (minutes ACCESS_TOKEN_EXPIRE_MINUTES)).

Definition toy_handle : Z → request → world → response * world :=
  handle toy_hash toy_verify toy_mac.

(** ** Further vocabulary: widths of a create request, invariants of the
    tables *)

(** The title and priority of a create request fit their columns. *)
Definition create_within_widths (task : TaskCreate.t) : Prop :=
  (char_length (TaskCreate.title task) ≤ 255)%nat
  ∧ (char_length (TaskCreate.priority task) ≤ 20)%nat.

(** Every string of a create request can be put into the INSERT. *)
Definition adaptable_create (task : TaskCreate.t) : Prop :=
  adaptable (TaskCreate.title task) = true
  ∧ sendable (TaskCreate.description task)
  ∧ adaptable (TaskCreate.priority task) = true.

(** The members of a registration, and the password hash, fit their
    columns. *)
Definition user_within_widths (hash : string → string) (user : UserCreate.t)
  : Prop :=
  (char_length (UserCreate.email user) ≤ 255)%nat
  ∧ (char_length (UserCreate.username user) ≤ 100)%nat
  ∧ fits 255 (UserCreate.full_name user)
  ∧ (char_length (hash (UserCreate.password user)) ≤ 255)%nat.

(** Every string of a registration, and the password hash, can be put into
    a statement. *)
Definition adaptable_user (hash : string → string) (user : UserCreate.t)
  : Prop :=
  adaptable (UserCreate.email user) = true
  ∧ adaptable (UserCreate.username user) = true
  ∧ sendable (UserCreate.full_name user)
  ∧ adaptable (hash (UserCreate.password user)) = true.

(** [users.email] and [users.username] are UNIQUE. *)
Definition registered_once (d : database) : Prop :=
  NoDup (User.email <$> users d) ∧ NoDup (User.username <$> users d).

(** [tasks.user_id REFERENCES users(id)]: the owner of every task exists. *)
Definition owners_exist (d : database) : Prop :=
  Forall (λ t, Task.user_id t ∈ User.id <$> users d) (tasks d).

(** The row that [create_task] inserts. *)
Definition created_row (now : Z) (task : TaskCreate.t) (u : User.row)
    (d : database) : Task.row :=
  Task.mk (tasks_id_seq d + 1) (User.id u) (TaskCreate.title task)
          (TaskCreate.description task) (TaskCreate.priority task) "pending"
          (TaskCreate.due_date task) now now.

(** The row that [register] inserts. *)
Definition registered_row (hash : string → string) (now : Z)
    (user : UserCreate.t) (d : database) : User.row :=
  User.mk (users_id_seq d + 1) (UserCreate.email user)
          (UserCreate.username user) (UserCreate.full_name user)
          (hash (UserCreate.password user)) true now.

Definition with_users (d : database) (us : list User.row) : database :=
  {| users := us; tasks := tasks d;
     users_id_seq := users_id_seq d; tasks_id_seq := tasks_id_seq d |}.

Definition login_refused : exn :=
  HTTPException 401 "Incorrect username or password"
                [("WWW-Authenticate", "Bearer")].

(** A handler keeps a property of the tables. *)
Definition keeps (I : database → Prop) {A} (h : handler A) : Prop :=
  ∀ w, I (db w) → I (db (h w).2).

(** The requests that only read: login and the GET routes. *)
Definition is_read_only (req : request) : bool :=
  match req with
  | POST_token _ _ | GET_users_me _ | GET_tasks _ _ _ | GET_task _ _
  | GET_tasks_stats_summary _ => true
  | POST_register _ | POST_tasks _ _ | PUT_task _ _ _ | DELETE_task _ _ => false
  end.

(** The rows of a table that do not belong to a user. *)
Definition foreign_to (user_id : Z) (ts : list Task.row) : list Task.row :=
  filter (λ t, Task.user_id t ≠ user_id) ts.

(** Two states of the tables with the same rows. *)
Definition same_rows (d d' : database) : Prop :=
  users d = users d' ∧ tasks d = tasks d'.

(** A handler changes the rows only when it returns a value that its
    response model accepts. *)
Definition quiet_on_failure {A} (model : A → option content) (h : handler A)
  : Prop :=
  ∀ w, match (h w).1 with
       | Return a => is_Some (model a) ∨ same_rows (db (h w).2) (db w)
       | Raise _ => same_rows (db (h w).2) (db w)
       end.

Definition is_success (code : Z) : Prop := code = 200 ∨ code = 201 ∨ code = 204.

(** ** Proof automation *)

(** Unfolding of the monad and of the cursor operations. *)
Ltac run :=
  unfold mbind, handler_bind, mret, handler_ret, raise, execute, with_params,
    get_db_connection, conn_close, conn_commit, cur_close, fetchone, fetchall
    in *;
  simpl in *.

(** Closed decidable side conditions are settled by evaluation. *)
Ltac by_evaluation := apply (bool_decide_unpack _); vm_compute; exact I.

(** Width and adaptability conditions on concrete strings. *)
Ltac by_inspection :=
  repeat split; try (intros ? [=]; subst);
  first [reflexivity | simpl; lia | vm_compute; lia].

(** * Properties *)

(** ** Connections: a handle that was just acquired can be released again *)

Lemma fresh_handle_above (cs : list nat) (c : nat) :
  c ∈ cs → (c < fresh_handle cs)%nat.
Proof.
  unfold fresh_handle. induction cs as [|c' cs IH]; intros Hin.
  - inversion Hin.
  - apply elem_of_cons in Hin as [->|Hin]; simpl; [lia|].
    specialize (IH Hin). lia.
Qed.

Lemma release_fresh (cs : list nat) :
  filter (λ c', c' ≠ fresh_handle cs) (fresh_handle cs :: cs) = cs.
Proof.
  rewrite filter_cons_False by (intros H; by apply H).
  induction cs as [|c cs IH]; [done|].
  assert (Hall : ∀ x, x ∈ c :: cs → x ≠ fresh_handle (c :: cs)).
  { intros x Hx. apply fresh_handle_above in Hx. lia. }
  clear IH. revert Hall. generalize (fresh_handle (c :: cs)). intros n.
  generalize (c :: cs). clear. intros l Hall.
  induction l as [|x l IH]; [done|].
  rewrite filter_cons_True by (apply Hall; left).
  f_equal. apply IH. intros y Hy. apply Hall. by right.
Qed.

Lemma world_eta (w : world) : {| db := db w; conns := conns w |} = w.
Proof. by destruct w. Qed.

Lemma with_tasks_same (d : database) : with_tasks d (tasks d) = d.
Proof. by destruct d. Qed.

(** Acquire, run a read-only body, release: the world is as before. *)
Lemma acquired_and_released (w : world) :
  {| db := db w;
     conns := filter (λ c', c' ≠ fresh_handle (conns w))
                     (fresh_handle (conns w) :: conns w) |} = w.
Proof. rewrite release_fresh. apply world_eta. Qed.

(** ** Primary keys *)

Lemma init_db_consistent : consistent init_db.
Proof. split; simpl; constructor. Qed.

Lemma filter_keeps_all {A} (P : A → Prop) `{∀ x, Decision (P x)} (l : list A) :
  Forall P l → filter P l = l.
Proof.
  induction 1 as [|x l Hx _ IH]; [done|].
  rewrite filter_cons_True by done. by f_equal.
Qed.

Lemma filter_drops_all {A} (P : A → Prop) `{∀ x, Decision (P x)} (l : list A) :
  filter P l = [] ↔ Forall (λ x, ¬ P x) l.
Proof.
  split.
  - intros Hnil. apply Forall_forall. intros x Hx HP.
    by apply (filter_nil_not_elem_of P l x).
  - induction 1 as [|x l Hx _ IH]; [done|].
    by rewrite filter_cons_False.
Qed.

(** A key selects at most its own row. *)
Lemma select_by_key_other_owner (ts : list Task.row) (t : Task.row) (uid : Z) :
  NoDup (Task.id <$> ts) →
  t ∈ ts →
  Task.user_id t ≠ uid →
  filter (matches [IdEq (Task.id t); UserIdEq uid]) ts = [].
Proof.
  intros Hnd Hin Hne.
  apply filter_drops_all, Forall_forall. intros r Hr Hm.
  unfold matches in Hm.
  apply Forall_cons in Hm as [Hid Hm]. apply Forall_cons in Hm as [Huid _].
  simpl in Hid, Huid.
  assert (r = t) as ->; [|done].
  clear Hne Huid. induction ts as [|x ts IH]; [inversion Hin|].
  rewrite fmap_cons in Hnd. apply NoDup_cons in Hnd as [Hx Hnd].
  apply elem_of_cons in Hin as [->|Hin]; apply elem_of_cons in Hr as [->|Hr];
    try done.
  - exfalso. apply Hx. rewrite <- Hid. by apply list_elem_of_fmap_2.
  - exfalso. apply Hx. rewrite Hid. by apply list_elem_of_fmap_2.
  - by apply IH.
Qed.

Lemma select_by_missing_key (ts : list Task.row) (missing uid : Z) :
  missing ∉ Task.id <$> ts →
  filter (matches [IdEq missing; UserIdEq uid]) ts = [].
Proof.
  intros Hmiss. apply filter_drops_all, Forall_forall. intros r Hr Hm.
  unfold matches in Hm. apply Forall_cons in Hm as [Hid _]. simpl in Hid.
  apply Hmiss. rewrite <- Hid. by apply list_elem_of_fmap_2.
Qed.

Lemma filter_none_remove_nothing (cs : list cond) (ts : list Task.row) :
  filter (matches cs) ts = [] → filter (λ t, ¬ matches cs t) ts = ts.
Proof.
  intros Hnil. apply filter_keeps_all.
  by apply filter_drops_all in Hnil.
Qed.

(** ** Ownership scoping of [get_task], [update_task], [delete_task] *)

Section NoMatchingRow.

Variables (w : world) (task_id : Z) (u : User.row).
Hypothesis no_row :
  filter (matches [IdEq task_id; UserIdEq (User.id u)]) (tasks (db w)) = [].

Lemma get_task_no_row : get_task task_id u w = (Raise task_not_found, w).
Proof. unfold get_task, select_tasks. run. rewrite no_row. simpl.
       by rewrite acquired_and_released. Qed.

Lemma update_task_no_row now task_update :
  update_task now task_id task_update u w = (Raise task_not_found, w).
Proof. unfold update_task, select_tasks. run. rewrite no_row. simpl.
       by rewrite acquired_and_released. Qed.

Lemma delete_task_no_row : delete_task task_id u w = (Raise task_not_found, w).
Proof.
  unfold delete_task, delete_tasks. run.
  rewrite (filter_none_remove_nothing _ _ no_row), no_row. simpl.
  rewrite with_tasks_same. by rewrite acquired_and_released.
Qed.

End NoMatchingRow.

(** C1. For a task [t] and a caller [u] who is not its owner, [get_task],
    [update_task] and [delete_task] on [t]'s id give the same outcome as on
    an id that no row carries: the 404 exception "Task not found", with the
    world (tables and connections) exactly as before. *)
Theorem foreign_task_is_as_missing_task
    (now : Z) (w : world) (t : Task.row) (u : User.row)
    (task_update : TaskUpdate.t) (missing : Z) :
  NoDup (Task.id <$> tasks (db w)) →
  t ∈ tasks (db w) →
  Task.user_id t ≠ User.id u →
  missing ∉ Task.id <$> tasks (db w) →
  (get_task (Task.id t) u w = get_task missing u w
   ∧ get_task missing u w = (Raise task_not_found, w))
  ∧ (update_task now (Task.id t) task_update u w
       = update_task now missing task_update u w
     ∧ update_task now missing task_update u w = (Raise task_not_found, w))
  ∧ (delete_task (Task.id t) u w = delete_task missing u w
     ∧ delete_task missing u w = (Raise task_not_found, w))
  ∧ status_code (respond 200 (λ r : Task.row, Some (TaskJson r))
                         (Raise task_not_found)) = 404.
Proof.
  intros Hnd Hin Hown Hmiss.
  pose proof (select_by_key_other_owner _ _ _ Hnd Hin Hown) as Hforeign.
  pose proof (select_by_missing_key _ _ (User.id u) Hmiss) as Hmissing.
  repeat split.
  - by rewrite !get_task_no_row.
  - by apply get_task_no_row.
  - by rewrite !update_task_no_row.
  - by apply update_task_no_row.
  - by rewrite !delete_task_no_row.
  - by apply delete_task_no_row.
Qed.

Lemma foreign_task_is_as_missing_task_witness :
  get_task 3 alice sample = get_task 99 alice sample
  ∧ delete_task 3 alice sample = (Raise task_not_found, sample).
Proof.
  pose proof (foreign_task_is_as_missing_task 0 sample groceries alice
                (TaskUpdate.mk None None None None None) 99) as H.
  destruct H as [[Hget _] [_ [[_ Hdel] _]]].
  - by_evaluation.
  - by_evaluation.
  - simpl. lia.
  - by_evaluation.
  - split; [exact Hget|].
    change 3 with (Task.id groceries). by rewrite <- Hdel.
Defined.

(** ** Partial update *)

Lemma varchar_fits (n : nat) (s : string) :
  (char_length s ≤ n)%nat → varchar n s = Some s.
Proof. intros H. unfold varchar. by rewrite decide_True. Qed.

Lemma coerce_update_fields (task_update : TaskUpdate.t) :
  within_column_widths task_update →
  mapM coerce (update_fields task_update) = Some (update_fields task_update).
Proof.
  intros (Ht & Hp & Hs). destruct task_update as [ti de pr st du].
  unfold update_fields, fits in *. simpl in *.
  destruct ti as [ti|], de as [de|], pr as [pr|], st as [st|], du as [du|];
    simpl;
    repeat match goal with
    | |- context [varchar 255 ?s] => rewrite (varchar_fits 255 s) by eauto
    | |- context [varchar 20 ?s] => rewrite (varchar_fits 20 s) by eauto
    end; reflexivity.
Qed.

Lemma update_fields_adaptable (task_update : TaskUpdate.t) :
  adaptable_update task_update →
  all_adaptable (assignment_strings (update_fields task_update)) = true.
Proof.
  intros (Ht & Hd & Hp & Hs). destruct task_update as [ti de pr st du].
  unfold update_fields, sendable in *. simpl in *.
  destruct ti as [ti|], de as [de|], pr as [pr|], st as [st|], du as [du|];
    simpl;
    repeat match goal with
    | |- context [adaptable ?s] =>
        let H := fresh in
        assert (H : adaptable s = true) by eauto; rewrite H; clear H
    end; reflexivity.
Qed.

(** The SET list built by [update_task] computes the partial update. *)
Lemma update_fields_partially_updated now task_update t :
  foldl (assign now) t (update_fields task_update)
  = partially_updated now task_update t.
Proof.
  destruct task_update as [ti de pr st du], t.
  destruct ti, de, pr, st, du; reflexivity.
Qed.

Lemma select_own_by_key (ts : list Task.row) (t : Task.row) (uid : Z) :
  NoDup (Task.id <$> ts) →
  t ∈ ts →
  Task.user_id t = uid →
  filter (matches [IdEq (Task.id t); UserIdEq uid]) ts = [t].
Proof.
  intros Hnd Hin Hown. induction ts as [|x ts IH]; [inversion Hin|].
  rewrite fmap_cons in Hnd. apply NoDup_cons in Hnd as [Hx Hnd].
  apply elem_of_cons in Hin as [<-|Hin].
  - rewrite filter_cons_True by (repeat constructor; done).
    f_equal. apply filter_drops_all, Forall_forall. intros r Hr Hm.
    apply Forall_cons in Hm as [Hid _]. simpl in Hid.
    apply Hx. rewrite <- Hid. by apply list_elem_of_fmap_2.
  - rewrite filter_cons_False; [by apply IH|].
    intros Hm. apply Forall_cons in Hm as [Hid _]. simpl in Hid.
    apply Hx. rewrite Hid. by apply list_elem_of_fmap_2.
Qed.

Lemma matches_key_of_owner (ts : list Task.row) (t r : Task.row) :
  NoDup (Task.id <$> ts) → t ∈ ts → r ∈ ts →
  matches [IdEq (Task.id t); UserIdEq (Task.user_id t)] r ↔ Task.id r = Task.id t.
Proof.
  intros Hnd Ht Hr. split.
  - intros Hm. by apply Forall_cons in Hm as [Hid _].
  - intros Hid. assert (r = t) as ->; [|repeat constructor; done].
    induction ts as [|x ts IH]; [inversion Ht|].
    rewrite fmap_cons in Hnd. apply NoDup_cons in Hnd as [Hx Hnd].
    apply elem_of_cons in Ht as [->|Ht]; apply elem_of_cons in Hr as [->|Hr];
      try done.
    + exfalso. apply Hx. rewrite <- Hid. by apply list_elem_of_fmap_2.
    + exfalso. apply Hx. rewrite Hid. by apply list_elem_of_fmap_2.
    + by apply IH.
Qed.

Lemma update_task_runs (now : Z) (w : world) (t : Task.row) (u : User.row)
    (task_update : TaskUpdate.t) :
  NoDup (Task.id <$> tasks (db w)) →
  t ∈ tasks (db w) →
  Task.user_id t = User.id u →
  within_column_widths task_update →
  adaptable_update task_update →
  update_task now (Task.id t) task_update u w
  = (Return (Some (partially_updated now task_update t)),
     {| db := with_tasks (db w)
                ((λ r, if decide (Task.id r = Task.id t)
                       then partially_updated now task_update r else r)
                   <$> tasks (db w));
        conns := conns w |}).
Proof.
  intros Hnd Hin Hown Hfit Hsend.
  unfold update_task, select_tasks, update_tasks. run.
  rewrite <- Hown, (select_own_by_key _ _ _ Hnd Hin eq_refl). simpl.
  rewrite app_nil_r, (update_fields_adaptable _ Hsend).
  rewrite (coerce_update_fields _ Hfit). simpl.
  rewrite release_fresh, (select_own_by_key _ _ _ Hnd Hin eq_refl). simpl.
  rewrite update_fields_partially_updated. do 3 f_equal.
  apply list_fmap_ext. intros i r Hr. apply list_elem_of_lookup_2 in Hr.
  rewrite update_fields_partially_updated.
  pose proof (matches_key_of_owner _ _ _ Hnd Hin Hr) as Hiff.
  destruct (decide (matches _ r)) as [Hm|Hm],
           (decide (Task.id r = Task.id t)) as [He|He]; try done; tauto.
Qed.

(** C2 (as amended). For an existing task [t] owned by the caller and an
    update whose supplied strings can be sent to the database (well-formed,
    without NUL character) and whose supplied title, priority and status
    fit their columns (255, 20 and 20 characters), [update_task] returns
    and stores the row in which exactly the supplied fields are replaced,
    every unsupplied field is as before and [updated_at] is the current
    instant; all other rows and the connections are untouched.  With only
    [status] supplied, title, description, priority and due date are as
    before; with nothing supplied, only [updated_at] changes. *)
Theorem update_task_applies_supplied_fields
    (now : Z) (w : world) (t : Task.row) (u : User.row)
    (task_update : TaskUpdate.t) :
  NoDup (Task.id <$> tasks (db w)) →
  t ∈ tasks (db w) →
  Task.user_id t = User.id u →
  within_column_widths task_update →
  adaptable_update task_update →
  update_task now (Task.id t) task_update u w
  = (Return (Some (partially_updated now task_update t)),
     {| db := with_tasks (db w)
                ((λ r, if decide (Task.id r = Task.id t)
                       then partially_updated now task_update r else r)
                   <$> tasks (db w));
        conns := conns w |})
  ∧ (∀ s, partially_updated now (TaskUpdate.mk None None None (Some s) None) t
          = Task.mk (Task.id t) (Task.user_id t) (Task.title t)
                    (Task.description t) (Task.priority t) s (Task.due_date t)
                    (Task.created_at t) now)
  ∧ partially_updated now (TaskUpdate.mk None None None None None) t
    = Task.mk (Task.id t) (Task.user_id t) (Task.title t)
              (Task.description t) (Task.priority t) (Task.status t)
              (Task.due_date t) (Task.created_at t) now.
Proof.
  intros Hnd Hin Hown Hfit Hsend.
  split; [by apply update_task_runs|split; [intros s|]; reflexivity].
Qed.

Lemma update_task_applies_supplied_fields_witness :
  update_task 100 1 (TaskUpdate.mk None None None (Some "completed") None)
              alice sample
  = (Return (Some (Task.mk 1 1 "write report" None "medium" "completed" None
                           10 100)),
     {| db := with_tasks (db sample)
                [Task.mk 1 1 "write report" None "medium" "completed" None
                         10 100; taxes; groceries];
        conns := [] |}).
Proof.
  refine (proj1 (update_task_applies_supplied_fields 100 sample report alice
                   (TaskUpdate.mk None None None (Some "completed") None)
                   _ _ _ _ _)).
  - by_evaluation.
  - by_evaluation.
  - reflexivity.
  - by_inspection.
  - by_inspection.
Defined.

(** C2 as stated fails on a supplied title of 256 characters: the UPDATE is
    rejected by the column type [VARCHAR(255)], nothing is applied and
    [updated_at] keeps its old value. *)
Lemma update_task_overlong_title_not_applied :
  report ∈ tasks (db sample)
  ∧ Task.user_id report = User.id alice
  ∧ update_task 100 1
      (TaskUpdate.mk (Some (string_of 256 "a")) None None None None)
      alice sample
    = (Raise value_too_long, {| db := db sample; conns := [1%nat] |})
  ∧ Task.updated_at <$> tasks (db sample) = [10; 20; 30].
Proof.
  split; [by_evaluation|]. split; [reflexivity|]. split; vm_compute; reflexivity.
Qed.

(** ** Explicit null in an update body *)

Lemma optional_omit_null {A} (f : field A) : optional (omit_null f) = optional f.
Proof. by destruct f. Qed.

Lemma parse_nulls_omitted (b : TaskUpdate.body) :
  TaskUpdate.parse (nulls_omitted b) = TaskUpdate.parse b.
Proof.
  unfold TaskUpdate.parse, nulls_omitted. simpl.
  by rewrite !optional_omit_null.
Qed.

Lemma keeps_optionals_refl t : keeps_optionals t t.
Proof. by repeat split. Qed.

Lemma assign_keeps_optionals now t a : keeps_optionals t (assign now t a).
Proof. destruct a; repeat split; simpl; eauto. Qed.

Lemma foldl_assign_keeps_optionals now sets t :
  keeps_optionals t (foldl (assign now) t sets).
Proof.
  revert t. induction sets as [|a sets IH]; intros t; simpl.
  - apply keeps_optionals_refl.
  - destruct (assign_keeps_optionals now t a) as (Hid & Hd & Hdue).
    destruct (IH (assign now t a)) as (Hid' & Hd' & Hdue').
    repeat split; [congruence|eauto..].
Qed.

Lemma Forall2_keeps_same (ts : list Task.row) : Forall2 keeps_optionals ts ts.
Proof. induction ts; constructor; auto using keeps_optionals_refl. Qed.

Lemma update_task_keeps_optionals now task_id task_update u w :
  Forall2 keeps_optionals (tasks (db w))
          (tasks (db (update_task now task_id task_update u w).2)).
Proof.
  unfold update_task, select_tasks, update_tasks. run.
  destruct (filter _ (tasks (db w))) as [|r rs]; simpl;
    [apply Forall2_keeps_same|].
  destruct (all_adaptable _); simpl; [|apply Forall2_keeps_same].
  destruct (mapM coerce _) as [sets'|]; simpl; [|apply Forall2_keeps_same].
  apply Forall2_fmap_r, Forall_Forall2_diag, Forall_forall. intros t _.
  simpl. case_decide; [apply foldl_assign_keeps_optionals|].
  apply keeps_optionals_refl.
Qed.

(** ** The dependency [get_current_user] only reads *)

Lemma get_current_user_outcome mac now t w :
  (∃ e, get_current_user mac now t w = (Raise e, w))
  ∨ (∃ u, u ∈ users (db w) ∧ get_current_user mac now t w = (Return u, w)).
Proof.
  unfold get_current_user, select_user_by_id.
  destruct (jwt_decode mac now t SECRET_KEY [ALGORITHM]) as [err|claims];
    [left; by eexists|].
  destruct (sub claims) as [user_id|]; [|left; by eexists].
  run. rewrite acquired_and_released.
  destruct (filter _ (users (db w))) as [|u us] eqn:Hsel; simpl.
  - left; by eexists.
  - right. exists u. split; [|done].
    assert (Hu : u ∈ filter (λ u0, User.id u0 = user_id) (users (db w)))
      by (rewrite Hsel; left).
    by apply list_elem_of_filter in Hu as [_ Hu].
Qed.

Lemma authenticated_outcome {A} mac now auth (k : User.row → handler A) w :
  (∃ e, authenticated mac now auth k w = (Raise e, w))
  ∨ (∃ u, u ∈ users (db w) ∧ authenticated mac now auth k w = k u w).
Proof.
  unfold authenticated. destruct auth as [t|]; [|left; by eexists].
  run. destruct (get_current_user_outcome mac now t w) as [[e ->]|[u [Hu ->]]].
  - left; by eexists.
  - right; by exists u.
Qed.

(** C10. In an update body an explicit null has the effect of leaving the
    member out: the request with the nulls and the request without them
    get the same response and leave the same world.  Hence no update
    request turns a description or a due date that is set back into null:
    after any PUT, every stored row is still there under its id, and where
    its description (due date) was set it still is. *)
Theorem explicit_null_is_omission
    (get_password_hash : string → string)
    (verify_password : string → string → bool)
    (mac : string → string → payload → Z)
    (now : Z) (auth : option token) (task_id : Z) (body : TaskUpdate.body)
    (w : world) :
  handle get_password_hash verify_password mac now
         (PUT_task auth task_id body) w
  = handle get_password_hash verify_password mac now
           (PUT_task auth task_id (nulls_omitted body)) w
  ∧ Forall2 keeps_optionals (tasks (db w))
      (tasks (db (handle get_password_hash verify_password mac now
                         (PUT_task auth task_id body) w).2)).
Proof.
  split.
  - unfold handle. by rewrite parse_nulls_omitted.
  - unfold handle.
    destruct (authenticated_outcome mac now auth
                (λ current_user, validated (TaskUpdate.parse body)
                   (λ task_update,
                      update_task now task_id task_update current_user)) w)
      as [[e ->]|[u [_ ->]]]; simpl.
    + apply Forall2_keeps_same.
    + pose proof (update_task_keeps_optionals now task_id
                    (TaskUpdate.mk (optional (TaskUpdate.b_title body))
                       (optional (TaskUpdate.b_description body))
                       (optional (TaskUpdate.b_priority body))
                       (optional (TaskUpdate.b_status body))
                       (optional (TaskUpdate.b_due_date body))) u w) as H.
      by destruct (update_task _ _ _ _ _).
Qed.

(** ** Listing *)

Lemma matches_snoc cs c t : matches (cs ++ [c]) t ↔ matches cs t ∧ holds t c.
Proof.
  unfold matches. rewrite Forall_app, Forall_singleton. tauto.
Qed.

Lemma matches_and_if param col query t :
  matches (and_if param col query) t
  ↔ matches query t
    ∧ match param with
      | Some v => v ≠ EmptyString → holds t (col v)
      | None => True
      end.
Proof.
  unfold and_if, truthy. destruct param as [v|]; [|tauto].
  case_bool_decide as Hv.
  - rewrite matches_snoc. tauto.
  - split; [|tauto]. intros Hq. split; [done|]. intros Hne. by destruct Hv.
Qed.

Lemma listing_query_selects user_id status priority t :
  matches (and_if priority PriorityEq (and_if status StatusEq [UserIdEq user_id])) t
  ↔ listed user_id status priority t.
Proof.
  rewrite !matches_and_if. unfold matches, listed, given_nonempty.
  rewrite Forall_singleton. simpl.
  destruct status, priority; simpl; tauto.
Qed.

Lemma listing_query_adaptable user_id status priority :
  sendable status → sendable priority →
  all_adaptable
    (cond_strings (and_if priority PriorityEq
                     (and_if status StatusEq [UserIdEq user_id]))) = true.
Proof.
  intros Hs Hp. unfold and_if, truthy, sendable in *.
  destruct status as [s|], priority as [p|]; repeat case_bool_decide; simpl;
    rewrite ?(Hs s eq_refl), ?(Hp p eq_refl); reflexivity.
Qed.

(** C7 (as amended). For every user and every combination of the optional
    status and priority filters whose values can be sent to the database
    (well-formed, without NUL character), [get_tasks] returns exactly that
    user's tasks that satisfy every filter given with a non-empty value
    (both, when both are given), ordered newest-created first; a filter
    given as the empty string does not constrain the listing.  The world is
    left as it was. *)
Theorem get_tasks_filters_and_orders
    (status priority : option string) (u : User.row) (w : world) :
  sendable status →
  sendable priority →
  ∃ rows,
    get_tasks status priority u w = (Return rows, w)
    ∧ rows ≡ₚ filter (listed (User.id u) status priority) (tasks (db w))
    ∧ Sorted newer_first rows.
Proof.
  intros Hs Hp. eexists. split; [|split].
  - unfold get_tasks, select_tasks_order_by_created_at_desc. run.
    rewrite (listing_query_adaptable _ _ _ Hs Hp). simpl.
    by rewrite acquired_and_released.
  - rewrite merge_sort_Permutation.
    erewrite list_filter_iff; [done|].
    intros t. apply listing_query_selects.
  - apply (Sorted_merge_sort newer_first).
Qed.

Lemma get_tasks_filters_and_orders_witness :
  ∃ rows,
    get_tasks (Some "pending") (Some "medium") alice sample = (Return rows, sample)
    ∧ rows ≡ₚ [report]
    ∧ Sorted newer_first rows.
Proof.
  apply (get_tasks_filters_and_orders (Some "pending") (Some "medium") alice
           sample); by_inspection.
Defined.

(** C7 as stated fails for a status filter given as the empty string: the
    listing is not the (empty) set of the user's tasks whose status is the
    empty string, it is all of the user's tasks. *)
Lemma get_tasks_empty_status_filter_ignored :
  get_tasks (Some EmptyString) None alice sample = (Return [taxes; report], sample)
  ∧ filter (listed_as_given (User.id alice) (Some EmptyString) None)
           (tasks (db sample)) = []
  ∧ ¬ ([taxes; report]
       ≡ₚ filter (listed_as_given (User.id alice) (Some EmptyString) None)
                 (tasks (db sample))).
Proof.
  assert (Hnil : filter (listed_as_given (User.id alice) (Some EmptyString) None)
                        (tasks (db sample)) = []) by (vm_compute; reflexivity).
  split; [vm_compute; reflexivity|]. split; [exact Hnil|].
  rewrite Hnil. intros Hp. by apply Permutation_nil_r in Hp.
Qed.

(** ** Statistics *)

Lemma get_task_statistics_runs now u w :
  get_task_statistics now u w
  = (Return (match (select_statistics now (User.id u) (db w)).1 with
             | Return rows => head rows
             | Raise _ => None
             end),
     w).
Proof.
  unfold get_task_statistics, select_statistics. run.
  by rewrite acquired_and_released.
Qed.

Lemma sum_case_when_counts {A} (c : A → option bool) (rows : list A) :
  foldr Z.add 0 ((λ t, case_when (c t)) <$> rows)
  = count_where (λ t, c t = Some true) rows.
Proof.
  unfold count_where. induction rows as [|t rows IH]; [done|].
  rewrite fmap_cons. simpl. rewrite IH.
  destruct (c t) as [[|]|] eqn:Hc; simpl.
  - rewrite filter_cons_True by done. simpl. lia.
  - rewrite filter_cons_False by (by rewrite Hc). lia.
  - rewrite filter_cons_False by (by rewrite Hc). lia.
Qed.

Lemma sql_sum_case_when {A} (c : A → option bool) (rows : list A) :
  rows ≠ [] →
  sql_sum ((λ t, case_when (c t)) <$> rows)
  = Some (count_where (λ t, c t = Some true) rows).
Proof.
  intros Hne. rewrite <- sum_case_when_counts.
  destruct rows; [done|reflexivity].
Qed.

Lemma overdue_condition now t :
  sql_and (sql_lt (Task.due_date t) now) (sql_ne_str (Task.status t) "completed")
  = Some true ↔ is_overdue now t.
Proof.
  unfold is_overdue, sql_lt, sql_ne_str.
  destruct (Task.due_date t) as [d|]; simpl.
  - repeat case_bool_decide; simpl; split; intros; try done; tauto.
  - case_bool_decide; simpl; split; intros; done.
Qed.

(** For a user who has at least one task, [overdue] is the number of the
    user's tasks with a due date strictly before [now] and a status other
    than completed. *)
Lemma overdue_of_user_with_tasks now u w :
  filter (owned_by (User.id u)) (tasks (db w)) ≠ [] →
  ∃ s, get_task_statistics now u w = (Return (Some s), w)
       ∧ overdue s = Some (count_where (is_overdue now)
                             (filter (owned_by (User.id u)) (tasks (db w)))).
Proof.
  intros Hne. rewrite get_task_statistics_runs. simpl.
  eexists. split; [reflexivity|]. simpl.
  assert (Hrows : filter (matches [UserIdEq (User.id u)]) (tasks (db w))
                  = filter (owned_by (User.id u)) (tasks (db w))).
  { apply list_filter_iff. intros t. unfold matches, owned_by.
    by rewrite Forall_singleton. }
  rewrite Hrows.
  rewrite (sql_sum_case_when
             (λ t, sql_and (sql_lt (Task.due_date t) now)
                           (sql_ne_str (Task.status t) "completed"))) by done.
  f_equal. unfold count_where. do 2 f_equal.
  apply list_filter_iff. intros t. apply overdue_condition.
Qed.

(** X21. For a user who has at least one task and whose tasks all carry one
    of the three status values, the three status counts add up to the
    total. *)
Lemma status_counts_of_user_with_tasks now u w :
  filter (owned_by (User.id u)) (tasks (db w)) ≠ [] →
  Forall (λ t, Task.status t = "pending" ∨ Task.status t = "in_progress"
               ∨ Task.status t = "completed")
         (filter (owned_by (User.id u)) (tasks (db w))) →
  ∃ s p i c, get_task_statistics now u w = (Return (Some s), w)
             ∧ pending s = Some p ∧ in_progress s = Some i ∧ completed s = Some c
             ∧ p + i + c = total_tasks s.
Proof.
  intros Hne Hall. rewrite get_task_statistics_runs. simpl.
  assert (Hrows : filter (matches [UserIdEq (User.id u)]) (tasks (db w))
                  = filter (owned_by (User.id u)) (tasks (db w))).
  { apply list_filter_iff. intros t. unfold matches, owned_by.
    by rewrite Forall_singleton. }
  rewrite Hrows. revert Hne Hall.
  generalize (filter (owned_by (User.id u)) (tasks (db w))). intros rows Hne Hall.
  do 4 eexists. split; [reflexivity|]. simpl.
  rewrite (sql_sum_case_when (λ t, sql_eq_str (Task.status t) "pending")),
    (sql_sum_case_when (λ t, sql_eq_str (Task.status t) "in_progress")),
    (sql_sum_case_when (λ t, sql_eq_str (Task.status t) "completed")) by done.
  repeat split. unfold sql_count, count_where, sql_eq_str. clear Hne.
  induction Hall as [|t rows Ht _ IH]; [done|].
  rewrite !filter_cons. simpl length.
  repeat case_decide; simplify_eq/=;
    repeat match goal with
    | H : bool_decide _ = true |- _ => apply bool_decide_eq_true in H
    | H : bool_decide _ ≠ true |- _ =>
        apply not_true_is_false, bool_decide_eq_false in H
    | H : Some (bool_decide _) = Some true |- _ =>
        injection H as H; apply bool_decide_eq_true in H
    | H : Some (bool_decide _) ≠ Some true |- _ =>
        assert (bool_decide _ ≠ true) by congruence; clear H
    end; simpl length; try lia; try congruence;
    destruct Ht as [?|[?|?]]; congruence.
Qed.

(** C3 (evaluation at the failing inputs).  For a user without tasks the
    aggregate row has [total_tasks = 0] but NULL for [pending],
    [in_progress] and [completed]; for a user whose only task was given a
    status outside the three values, the three counts are 0 and the total
    is 1.  In neither case is the sum of the three equal to the total. *)
Theorem status_counts_fail_to_add_up :
  get_task_statistics 100 carol sample
  = (Return (Some {| total_tasks := 0; completed := None; in_progress := None;
                     pending := None; high_priority := None; overdue := None |}),
     sample)
  ∧ (let w := (update_task 50 3 (TaskUpdate.mk None None None (Some "archived") None)
                           bob sample).2 in
     (get_task_statistics 100 bob w).1
     = Return (Some {| total_tasks := 1; completed := Some 0;
                       in_progress := Some 0; pending := Some 0;
                       high_priority := Some 0; overdue := Some 1 |})).
Proof. split; vm_compute; reflexivity. Qed.

(** C4 (evaluation at the failing input).  For a user without tasks the
    number of overdue tasks is 0, but the [overdue] member of the summary is
    NULL. *)
Theorem overdue_is_null_without_tasks :
  ∃ s, get_task_statistics 100 carol sample = (Return (Some s), sample)
       ∧ overdue s = None
       ∧ count_where (is_overdue 100)
                     (filter (owned_by (User.id carol)) (tasks (db sample))) = 0.
Proof. eexists. repeat split; vm_compute; reflexivity. Qed.

(** C5 (evaluation at the failing inputs).  A create request with priority
    "urgent" is answered 201 and stores the row; an update request with
    status "archived" and priority "whenever" is answered 200 and changes
    the row. *)
Theorem values_outside_enumerations_are_accepted :
  (let out := toy_handle 100
                (POST_tasks (Some (toy_token 1))
                   (TaskCreate.mkBody (Value "call home") Absent
                                      (Value "urgent") Absent)) sample in
   out.1 = mkResponse 201 []
             (TaskJson (Task.mk 4 1 "call home" None "urgent" "pending" None
                                100 100))
   ∧ tasks (db out.2)
     = [report; taxes; groceries;
        Task.mk 4 1 "call home" None "urgent" "pending" None 100 100])
  ∧ (let out := toy_handle 100
                  (PUT_task (Some (toy_token 1)) 1
                     (TaskUpdate.mkBody Absent Absent (Value "whenever")
                                        (Value "archived") Absent)) sample in
     out.1 = mkResponse 200 []
               (TaskJson (Task.mk 1 1 "write report" None "whenever" "archived"
                                  None 10 100))
     ∧ tasks (db out.2)
       = [Task.mk 1 1 "write report" None "whenever" "archived" None 10 100;
          taxes; groceries]).
Proof. repeat split; vm_compute; reflexivity. Qed.

(** ** Connections on the exit paths of the handlers *)

Lemma releases_create_task now task u : releases (create_task now task u).
Proof.
  intros w. unfold create_task, insert_task. run.
  repeat case_match; simplify_eq/=; rewrite ?release_fresh; done.
Qed.

Lemma releases_get_tasks status priority u : releases (get_tasks status priority u).
Proof.
  intros w. unfold get_tasks, select_tasks_order_by_created_at_desc. run.
  repeat case_match; simplify_eq/=; rewrite ?release_fresh; done.
Qed.

Lemma releases_get_task task_id u : releases (get_task task_id u).
Proof.
  intros w. unfold get_task, select_tasks. run.
  destruct (filter _ (tasks (db w))); simpl; by rewrite release_fresh.
Qed.

Lemma releases_update_task now task_id task_update u :
  releases (update_task now task_id task_update u).
Proof.
  intros w. unfold update_task, select_tasks, update_tasks. run.
  destruct (filter _ (tasks (db w))); simpl; [by rewrite release_fresh|].
  repeat case_match; simplify_eq/=; rewrite ?release_fresh; done.
Qed.

Lemma releases_delete_task task_id u : releases (delete_task task_id u).
Proof.
  intros w. unfold delete_task, delete_tasks. run.
  destruct (filter _ (tasks (db w))); simpl; by rewrite release_fresh.
Qed.

Lemma releases_get_task_statistics now u : releases (get_task_statistics now u).
Proof.
  intros w. rewrite get_task_statistics_runs. done.
Qed.

Lemma releases_read_users_me u : releases (read_users_me u).
Proof. intros w. done. Qed.

Lemma releases_register hash now user : releases (register hash now user).
Proof.
  intros w. unfold register, select_id_by_email_or_username, insert_user. run.
  repeat case_match; simplify_eq/=; rewrite ?release_fresh; done.
Qed.

Lemma releases_login verify mac now username password :
  releases (login verify mac now username password).
Proof.
  intros w. unfold login, select_user_by_username. run.
  repeat case_match; simplify_eq/=; rewrite ?release_fresh; done.
Qed.

Lemma releases_validated {A B} (parsed : option A) (k : A → handler B) :
  (∀ a, releases (k a)) → releases (validated parsed k).
Proof. intros Hk w. destruct parsed as [a|]; simpl; [apply Hk|done]. Qed.

Lemma releases_authenticated {A} mac now auth (k : User.row → handler A) :
  (∀ u, releases (k u)) → releases (authenticated mac now auth k).
Proof.
  intros Hk w.
  destruct (authenticated_outcome mac now auth k w) as [[e ->]|[u [_ ->]]].
  - simpl. by destruct e.
  - apply Hk.
Qed.

Lemma released_unless_500 {A} (success : Z) (model : A → option content)
    (h : handler A) (w : world) :
  releases h →
  status_code (respond success model (h w).1) ≠ 500 →
  conns (h w).2 = conns w.
Proof.
  intros Hh Hcode. specialize (Hh w).
  destruct (h w).1 as [a|[code detail hs| |msg|msg]]; simpl in *; done.
Qed.

Lemma connections_released hash verify mac now req w :
  status_code (handle hash verify mac now req w).1 ≠ 500 →
  conns (handle hash verify mac now req w).2 = conns w.
Proof.
  unfold handle.
  destruct req;
    match goal with
    | |- context [let (_, _) := ?h w in _] =>
        intros Hcode;
        assert (Hrel : releases h)
          by eauto using releases_register, releases_login,
               releases_authenticated, releases_validated,
               releases_read_users_me, releases_create_task,
               releases_get_tasks, releases_get_task, releases_update_task,
               releases_delete_task, releases_get_task_statistics;
        revert Hcode; destruct (h w) as [r w'] eqn:Hrun; simpl; intros Hcode;
        change w' with (r, w').2; rewrite <- Hrun;
        eapply released_unless_500; [exact Hrel|]; rewrite Hrun; exact Hcode
    end.
Qed.

(** X22. Whatever the request, if it is not answered with an unhandled
    server error (500), every connection it opened has been closed when it
    completes: the open connections are the ones that were open before.
    This covers the success responses and the 400, 401, 404 and 422
    answers. *)
Theorem connections_released_unless_server_error
    (get_password_hash : string → string)
    (verify_password : string → string → bool)
    (mac : string → string → payload → Z)
    (now : Z) (req : request) (w : world) :
  status_code (handle get_password_hash verify_password mac now req w).1 ≠ 500 →
  conns (handle get_password_hash verify_password mac now req w).2 = conns w.
Proof. apply connections_released. Qed.

Lemma connections_released_unless_server_error_witness :
  (toy_handle 100 (GET_task (Some (toy_token 1)) 3) sample).1
  = mkResponse 404 [] (DetailJson "Task not found")
  ∧ conns (toy_handle 100 (GET_task (Some (toy_token 1)) 3) sample).2 = [].
Proof.
  split; [vm_compute; reflexivity|].
  apply (connections_released_unless_server_error toy_hash toy_verify toy_mac
           100 (GET_task (Some (toy_token 1)) 3) sample).
  vm_compute. discriminate.
Defined.

(** C6 (evaluation at the failing inputs).  When a statement raises, the
    exception leaves the handler before its [conn.close()]: a create
    request whose priority has 21 characters does not fit [VARCHAR(20)], a
    listing whose status filter contains the character NUL cannot be sent;
    both are answered 500, and the connection that the handler opened is
    still open after the request, where none was open before. *)
Theorem connection_left_open_after_database_failure :
  toy_handle 100
    (POST_tasks (Some (toy_token 1))
       (TaskCreate.mkBody (Value "call home") Absent
                          (Value (string_of 21 "x")) Absent)) sample
  = (internal_server_error, {| db := db sample; conns := [1%nat] |})
  ∧ toy_handle 100
      (GET_tasks (Some (toy_token 1)) (Some (String zero EmptyString)) None)
      sample
    = (internal_server_error, {| db := db sample; conns := [1%nat] |})
  ∧ conns sample = [].
Proof. repeat split; vm_compute; reflexivity. Qed.

(** ** Tokens *)

Lemma jwt_decode_own_token mac now claims :
  jwt_decode mac now (jwt_encode mac claims SECRET_KEY ALGORITHM) SECRET_KEY
             [ALGORITHM]
  = match exp claims with
    | Some e => if decide (e ≤ now) then inl ExpiredSignatureError else inr claims
    | None => inr claims
    end.
Proof.
  unfold jwt_decode, jwt_encode.
  rewrite decide_True by apply list_elem_of_here.
  by rewrite decide_True.
Qed.

Lemma access_token_expiry mac issued data expires_delta :
  create_access_token mac issued data expires_delta
  = jwt_encode mac (with_exp data (access_expiry issued expires_delta))
               SECRET_KEY ALGORITHM.
Proof.
  unfold create_access_token, access_expiry, minutes.
  destruct expires_delta as [delta|]; [|done].
  destruct (decide (delta = 0)) as [->|Hd].
  - by rewrite decide_False by (intros H; by apply H).
  - by rewrite decide_True.
Qed.

Lemma get_current_user_rejects mac now t w :
  (∃ e, jwt_decode mac now t SECRET_KEY [ALGORITHM] = inl e) →
  get_current_user mac now t w = (Raise credentials_exception, w).
Proof. intros [e He]. unfold get_current_user. by rewrite He. Qed.

(** C8. A token issued by [create_access_token] for a user id, with any
    expiry window, decodes to claims with that subject at every instant
    strictly before its expiry, and [get_current_user] then resolves it to
    the stored user with that id; at every instant after its expiry, with a
    signature that is not the MAC of its content, or malformed, the token is
    refused with the credentials exception, which is answered 401 with the
    header [WWW-Authenticate: Bearer]. *)
Theorem token_valid_exactly_until_expiry
    (mac : string → string → payload → Z)
    (issued : Z) (user_id : Z) (expires_delta : option Z) (now : Z) (w : world) :
  let t := create_access_token mac issued {| sub := Some user_id; exp := None |}
                               expires_delta in
  let expiry := access_expiry issued expires_delta in
  (now < expiry →
     jwt_decode mac now t SECRET_KEY [ALGORITHM]
     = inr {| sub := Some user_id; exp := Some expiry |}
     ∧ ∀ u, head (filter (λ u, User.id u = user_id) (users (db w))) = Some u →
            get_current_user mac now t w = (Return u, w) ∧ User.id u = user_id)
  ∧ (expiry < now →
       get_current_user mac now t w = (Raise credentials_exception, w))
  ∧ (∀ alg claims signature,
       signature ≠ mac SECRET_KEY alg claims →
       get_current_user mac now (Jws alg claims signature) w
       = (Raise credentials_exception, w))
  ∧ (∀ raw, get_current_user mac now (Malformed raw) w
            = (Raise credentials_exception, w))
  ∧ respond 200 (λ u, Some (user_out u)) (Raise credentials_exception)
    = mkResponse 401 [("WWW-Authenticate", "Bearer")]
                 (DetailJson "Could not validate credentials").
Proof.
  intros t expiry. subst t expiry. rewrite access_token_expiry.
  set (expiry := access_expiry issued expires_delta).
  split; [|split; [|split; [|split]]].
  - intros Hearly.
    assert (Hdec : jwt_decode mac now
                     (jwt_encode mac (with_exp {| sub := Some user_id; exp := None |}
                                               expiry) SECRET_KEY ALGORITHM)
                     SECRET_KEY [ALGORITHM]
                   = inr {| sub := Some user_id; exp := Some expiry |}).
    { rewrite jwt_decode_own_token. simpl. by rewrite decide_False by lia. }
    split; [exact Hdec|]. intros u Hu. split.
    + unfold get_current_user. rewrite Hdec. simpl.
      unfold select_user_by_id. run. rewrite acquired_and_released.
      by rewrite Hu.
    + assert (Hin : u ∈ filter (λ u0, User.id u0 = user_id) (users (db w))).
      { destruct (filter _ (users (db w))); simplify_eq/=. left. }
      by apply list_elem_of_filter in Hin as [Hin _].
  - intros Hlate. apply get_current_user_rejects.
    rewrite jwt_decode_own_token. simpl.
    rewrite decide_True by lia. by eexists.
  - intros alg claims signature Hsig. apply get_current_user_rejects.
    unfold jwt_decode. case_decide; [|by eexists].
    rewrite decide_False by done. by eexists.
  - intros raw. apply get_current_user_rejects. by eexists.
  - reflexivity.
Qed.

Lemma token_valid_exactly_until_expiry_witness :
  get_current_user toy_mac 100 (toy_token 1) sample = (Return alice, sample)
  ∧ get_current_user toy_mac 1801 (toy_token 1) sample
    = (Raise credentials_exception, sample).
Proof.
  pose proof (token_valid_exactly_until_expiry toy_mac 0 1
                (Some (minutes ACCESS_TOKEN_EXPIRE_MINUTES)) 100 sample)
    as [Hearly _].
  pose proof (token_valid_exactly_until_expiry toy_mac 0 1
                (Some (minutes ACCESS_TOKEN_EXPIRE_MINUTES)) 1801 sample)
    as [_ [Hlate _]].
  split.
  - apply Hearly; [vm_compute; reflexivity|reflexivity].
  - apply Hlate. vm_compute. reflexivity.
Defined.

(** ** The active flag *)

Lemma filter_fmap_blind {A} (f : A → A) (P : A → Prop) `{∀ x, Decision (P x)}
    (l : list A) :
  (∀ x, P (f x) ↔ P x) → filter P (f <$> l) = f <$> filter P l.
Proof.
  intros HP. induction l as [|x l IH]; [done|].
  rewrite fmap_cons, !filter_cons, IH.
  destruct (decide (P (f x))) as [H1|H1], (decide (P x)) as [H2|H2];
    try done; exfalso; [apply H2|apply H1]; by apply HP.
Qed.

Lemma fmap_blind {A B} (f : A → A) (g : A → B) (l : list A) :
  (∀ x, g (f x) = g x) → g <$> (f <$> l) = g <$> l.
Proof.
  intros Hg. rewrite <- list_fmap_compose. apply list_fmap_ext.
  intros i x _. apply Hg.
Qed.

Lemma blind_get_current_user mac now t :
  blind without_active (get_current_user mac now t) (get_current_user mac now t).
Proof.
  intros w. unfold get_current_user, select_user_by_id.
  destruct (jwt_decode mac now t SECRET_KEY [ALGORITHM]) as [err|claims];
    [done|].
  destruct (sub claims) as [user_id|]; [|done].
  run. rewrite (filter_fmap_blind without_active) by done.
  destruct (filter _ (users (db w))); reflexivity.
Qed.

Lemma blind_authenticated {A} (f : A → A) mac now auth
    (k : User.row → handler A) :
  (∀ u, blind f (k (without_active u)) (k u)) →
  blind f (authenticated mac now auth k) (authenticated mac now auth k).
Proof.
  intros Hk w. unfold authenticated. destruct auth as [t|]; [|done].
  run. rewrite (blind_get_current_user mac now t w).
  destruct (get_current_user mac now t w) as [[u|e] w']; simpl; [|done].
  apply Hk.
Qed.

Lemma blind_validated {A B} (f : B → B) (parsed : option A)
    (k' k : A → handler B) :
  (∀ a, blind f (k' a) (k a)) →
  blind f (validated parsed k') (validated parsed k).
Proof. intros Hk w. destruct parsed as [a|]; simpl; [apply Hk|done]. Qed.

Lemma blind_create_task now task u :
  blind id (create_task now task (without_active u)) (create_task now task u).
Proof.
  intros w. unfold create_task, insert_task. run.
  rewrite (fmap_blind without_active User.id) by done.
  repeat case_match; simplify_eq/=; done.
Qed.

Lemma blind_get_tasks status priority u :
  blind id (get_tasks status priority (without_active u))
        (get_tasks status priority u).
Proof.
  intros w. unfold get_tasks, select_tasks_order_by_created_at_desc. run.
  repeat case_match; simplify_eq/=; done.
Qed.

Lemma blind_get_task task_id u :
  blind id (get_task task_id (without_active u)) (get_task task_id u).
Proof.
  intros w. unfold get_task, select_tasks. run.
  destruct (filter _ (tasks (db w))); reflexivity.
Qed.

Lemma blind_update_task now task_id task_update u :
  blind id (update_task now task_id task_update (without_active u))
        (update_task now task_id task_update u).
Proof.
  intros w. unfold update_task, select_tasks, update_tasks. run.
  destruct (filter _ (tasks (db w))); simpl; [reflexivity|].
  repeat case_match; simplify_eq/=; done.
Qed.

Lemma blind_delete_task task_id u :
  blind id (delete_task task_id (without_active u)) (delete_task task_id u).
Proof.
  intros w. unfold delete_task, delete_tasks. run.
  destruct (filter _ (tasks (db w))); reflexivity.
Qed.

Lemma blind_get_task_statistics now u :
  blind id (get_task_statistics now (without_active u))
        (get_task_statistics now u).
Proof. intros w. reflexivity. Qed.

Lemma blind_read_users_me u :
  blind without_active (read_users_me (without_active u)) (read_users_me u).
Proof. intros w. reflexivity. Qed.

Lemma blind_register hash now user :
  blind (fmap without_active) (register hash now user) (register hash now user).
Proof.
  intros w. unfold register, select_id_by_email_or_username, insert_user. run.
  rewrite (filter_fmap_blind without_active) by done.
  rewrite !(fmap_blind without_active) by done.
  repeat case_match; simplify_eq/=;
    repeat match goal with
    | H : decide _ = _ |- _ => clear H
    end;
    repeat match goal with
    | H : context [_ <$> (without_active <$> _)] |- _ =>
        rewrite !(fmap_blind without_active) in H by done
    end;
    try done; try (exfalso; tauto);
    unfold blank_active; simpl; by rewrite fmap_app.
Qed.

Lemma blind_login verify mac now username password :
  blind id (login verify mac now username password)
        (login verify mac now username password).
Proof.
  intros w. unfold login, select_user_by_username. run.
  rewrite (filter_fmap_blind without_active) by done.
  destruct (adaptable username); simpl; [|done].
  destruct (filter _ (users (db w))) as [|u us]; simpl; [done|].
  destruct (verify password (User.hashed_password u)); done.
Qed.

Lemma respond_blind {A} (f : A → A) success (model : A → option content)
    (r : result A) :
  (∀ a, model (f a) = model a) →
  respond success model (map_result f r) = respond success model r.
Proof. intros Hm. destruct r as [a|e]; simpl; [by rewrite Hm|done]. Qed.

(** A request on the blanked world is answered as on the world itself and
    leaves the blanked final world. *)
Lemma handle_blank_active hash verify mac now req w :
  handle hash verify mac now req (blank_active w)
  = ((handle hash verify mac now req w).1,
     blank_active (handle hash verify mac now req w).2).
Proof.
  unfold handle.
  destruct req;
    match goal with
    | |- context [let (_, _) := ?h w in _] =>
        let Hb := fresh "Hb" in
        first
          [ assert (Hb : blind id h h)
              by eauto using blind_login, blind_authenticated, blind_validated,
                   blind_create_task, blind_get_tasks, blind_get_task,
                   blind_update_task, blind_delete_task,
                   blind_get_task_statistics
          | assert (Hb : blind without_active h h)
              by eauto using blind_authenticated, blind_read_users_me
          | assert (Hb : blind (fmap without_active) h h)
              by eauto using blind_register ];
        rewrite (Hb w); destruct (h w) as [r w']; simpl; f_equal;
        apply respond_blind; try done; by intros [a|]
    end.
Qed.

(** C9. For two worlds whose stored users differ at most in their
    [is_active] flags, every request (login and every authenticated
    operation included) gets the same response in both, and the two worlds
    still differ at most in those flags afterwards: the flag is never
    consulted. *)
Theorem is_active_is_never_consulted
    (get_password_hash : string → string)
    (verify_password : string → string → bool)
    (mac : string → string → payload → Z)
    (now : Z) (req : request) (w1 w2 : world) :
  same_but_active w1 w2 →
  (handle get_password_hash verify_password mac now req w1).1
  = (handle get_password_hash verify_password mac now req w2).1
  ∧ same_but_active
      (handle get_password_hash verify_password mac now req w1).2
      (handle get_password_hash verify_password mac now req w2).2.
Proof.
  intros Hsame. unfold same_but_active in *.
  pose proof (handle_blank_active get_password_hash verify_password mac now
                req w1) as H1.
  pose proof (handle_blank_active get_password_hash verify_password mac now
                req w2) as H2.
  rewrite Hsame, H2 in H1.
  split; [exact (eq_sym (f_equal fst H1))|exact (eq_sym (f_equal snd H1))].
Qed.

Lemma is_active_is_never_consulted_witness :
  same_but_active sample sample_all_active
  ∧ (handle toy_hash toy_verify toy_mac 100 (POST_token "bob" "builder") sample).1
    = (handle toy_hash toy_verify toy_mac 100 (POST_token "bob" "builder")
              sample_all_active).1
  ∧ status_code (handle toy_hash toy_verify toy_mac 100
                        (POST_token "bob" "builder") sample).1 = 200.
Proof.
  assert (Hsame : same_but_active sample sample_all_active)
    by (vm_compute; reflexivity).
  split; [exact Hsame|]. split.
  - exact (proj1 (is_active_is_never_consulted toy_hash toy_verify toy_mac 100
                    (POST_token "bob" "builder") sample sample_all_active
                    Hsame)).
  - vm_compute. reflexivity.
Defined.

(** ** What each writing handler can do to the tables *)

Lemma with_tasks_fmap_id (d : database) : with_tasks d (id <$> tasks d) = d.
Proof. rewrite list_fmap_id. by destruct d. Qed.

(** [create_task]: nothing; or the sequence has advanced and the row was
    not kept (foreign key); or the row was appended under the next key. *)
Lemma create_task_db now task u w :
  ((∃ e, (create_task now task u w).1 = Raise e)
   ∧ db (create_task now task u w).2 = db w)
  ∨ ((∃ e, (create_task now task u w).1 = Raise e)
     ∧ tasks_id_seq (db w) < max_serial
     ∧ db (create_task now task u w).2
       = with_tasks_id_seq (db w) (tasks_id_seq (db w) + 1))
  ∨ (∃ r, (create_task now task u w).1 = Return (Some r)
          ∧ Task.id r = tasks_id_seq (db w) + 1
          ∧ Task.user_id r = User.id u
          ∧ User.id u ∈ User.id <$> users (db w)
          ∧ tasks_id_seq (db w) < max_serial
          ∧ db (create_task now task u w).2
            = {| users := users (db w); tasks := tasks (db w) ++ [r];
                 users_id_seq := users_id_seq (db w);
                 tasks_id_seq := tasks_id_seq (db w) + 1 |}).
Proof.
  unfold create_task, insert_task. run.
  repeat case_match; simplify_eq/=;
    first [ left; split; [by eexists|done]
          | right; left; split; [by eexists|done]
          | right; right; eexists; repeat split; done ].
Qed.

(** [register]: nothing; or the sequence has advanced and the row was not
    kept (unique constraint); or the user was appended under the next key,
    with an email and a username that no stored user had. *)
Lemma register_db hash now user w :
  ((∃ e, (register hash now user w).1 = Raise e)
   ∧ db (register hash now user w).2 = db w)
  ∨ ((∃ e, (register hash now user w).1 = Raise e)
     ∧ users_id_seq (db w) < max_serial
     ∧ db (register hash now user w).2
       = with_users_id_seq (db w) (users_id_seq (db w) + 1))
  ∨ (∃ r, (register hash now user w).1 = Return (Some r)
          ∧ User.id r = users_id_seq (db w) + 1
          ∧ (User.email r ∉ User.email <$> users (db w))
          ∧ (User.username r ∉ User.username <$> users (db w))
          ∧ users_id_seq (db w) < max_serial
          ∧ db (register hash now user w).2
            = {| users := users (db w) ++ [r]; tasks := tasks (db w);
                 users_id_seq := users_id_seq (db w) + 1;
                 tasks_id_seq := tasks_id_seq (db w) |}).
Proof.
  unfold register, select_id_by_email_or_username, insert_user. run.
  repeat case_match; simplify_eq/=;
    first [ left; split; [by eexists|done]
          | right; left; split; [by eexists|done]
          | right; right; eexists; split_and!;
            first [done | match goal with H : _ ∧ _ |- _ => apply H end] ].
Qed.

(** [update_task]: the rows that match the key and the caller go through
    the SET list, all others stay; when it raises, every row stays. *)
Lemma update_task_db now task_id task_update u w :
  ∃ f : Task.row → Task.row,
    db (update_task now task_id task_update u w).2
    = with_tasks (db w) (f <$> tasks (db w))
    ∧ (∀ t, f t = t
            ∨ (Task.user_id t = User.id u
               ∧ ∃ sets, f t = foldl (assign now) t sets))
    ∧ ((∃ e, (update_task now task_id task_update u w).1 = Raise e) →
       db (update_task now task_id task_update u w).2 = db w).
Proof.
  unfold update_task, select_tasks, update_tasks. run.
  assert (Hsame : ∀ r : result (option Task.row),
            ∃ f : Task.row → Task.row,
              db w = with_tasks (db w) (f <$> tasks (db w))
              ∧ (∀ t, f t = t
                      ∨ (Task.user_id t = User.id u
                         ∧ ∃ sets, f t = foldl (assign now) t sets))
              ∧ ((∃ e, r = Raise e) → db w = db w)).
  { intros r. exists id. rewrite with_tasks_fmap_id.
    split; [done|]. split; [by left|done]. }
  destruct (filter _ (tasks (db w))) as [|r rs]; simpl; [apply Hsame|].
  destruct (all_adaptable _); simpl; [|apply Hsame].
  destruct (mapM coerce _) as [sets'|]; simpl; [|apply Hsame].
  eexists. split; [reflexivity|]. split.
  - intros t. simpl. case_decide as Hm; [right|by left].
    apply Forall_cons in Hm as [_ Hm]. apply Forall_cons in Hm as [Hown _].
    split; [exact Hown|by eexists].
  - by intros [e He].
Qed.

(** [delete_task]: the rows that match the key and the caller are gone. *)
Lemma delete_task_db task_id u w :
  db (delete_task task_id u w).2
  = with_tasks (db w)
      (filter (λ t, ¬ matches [IdEq task_id; UserIdEq (User.id u)] t)
              (tasks (db w))).
Proof.
  unfold delete_task, delete_tasks. run.
  by destruct (filter (matches _) (tasks (db w))).
Qed.

Lemma delete_task_raise task_id u w :
  (∃ e, (delete_task task_id u w).1 = Raise e) →
  db (delete_task task_id u w).2 = db w.
Proof.
  unfold delete_task, delete_tasks. run.
  destruct (filter (matches _) (tasks (db w))) eqn:Hsel; simpl.
  - intros _. rewrite (filter_none_remove_nothing _ _ Hsel).
    apply with_tasks_same.
  - by intros [e He].
Qed.

(** The other handlers leave the tables as they are. *)

Lemma get_tasks_db status priority u w :
  db (get_tasks status priority u w).2 = db w.
Proof.
  unfold get_tasks, select_tasks_order_by_created_at_desc. run.
  by destruct (all_adaptable _).
Qed.

Lemma get_task_reads task_id u w : (get_task task_id u w).2 = w.
Proof.
  unfold get_task, select_tasks. run.
  destruct (filter _ (tasks (db w))); simpl; apply acquired_and_released.
Qed.

Lemma get_task_statistics_reads now u w : (get_task_statistics now u w).2 = w.
Proof. by rewrite get_task_statistics_runs. Qed.

Lemma login_db verify mac now username password w :
  db (login verify mac now username password w).2 = db w.
Proof.
  unfold login, select_user_by_username. run.
  repeat case_match; simplify_eq/=; done.
Qed.

Lemma authenticated_db {A} mac now auth (k : User.row → handler A) w :
  (∀ u, db (k u w).2 = db w) → db (authenticated mac now auth k w).2 = db w.
Proof.
  intros Hk.
  destruct (authenticated_outcome mac now auth k w) as [[e ->]|[u [_ ->]]];
    [done|apply Hk].
Qed.

(** ** Invariants of the tables along every request *)

Lemma keeps_of_db_same (I : database → Prop) {A} (h : handler A) :
  (∀ w, db (h w).2 = db w) → keeps I h.
Proof. intros Hr w Hw. by rewrite Hr. Qed.

Lemma keeps_validated (I : database → Prop) {A B} (parsed : option A)
    (k : A → handler B) :
  (∀ a, keeps I (k a)) → keeps I (validated parsed k).
Proof. intros Hk w. destruct parsed as [a|]; simpl; [apply Hk|done]. Qed.

Lemma keeps_authenticated (I : database → Prop) {A} mac now auth
    (k : User.row → handler A) :
  (∀ u, keeps I (k u)) → keeps I (authenticated mac now auth k).
Proof.
  intros Hk w.
  destruct (authenticated_outcome mac now auth k w) as [[e ->]|[u [_ ->]]];
    [done|apply Hk].
Qed.

Lemma get_task_db task_id u w : db (get_task task_id u w).2 = db w.
Proof. by rewrite get_task_reads. Qed.

Lemma get_task_statistics_db now u w : db (get_task_statistics now u w).2 = db w.
Proof. by rewrite get_task_statistics_reads. Qed.

Lemma read_users_me_db u w : db (read_users_me u w).2 = db w.
Proof. done. Qed.

(** An invariant kept by the three writing task handlers is kept by every
    request but a registration; if [register] keeps it too, by every
    request. *)
Lemma handle_keeps_unless_register (I : database → Prop) hash verify mac now
    req :
  (∀ now task u, keeps I (create_task now task u)) →
  (∀ now task_id task_update u, keeps I (update_task now task_id task_update u)) →
  (∀ task_id u, keeps I (delete_task task_id u)) →
  ∀ w, I (db w) →
       match req with
       | POST_register _ => True
       | _ => I (db (handle hash verify mac now req w).2)
       end.
Proof.
  intros Hcreate Hupdate Hdelete w Hw. unfold handle.
  destruct req; [exact Logic.I|..];
    match goal with
    | |- context [let (_, _) := ?h w in _] =>
        assert (Hk : keeps I h)
          by (eauto using keeps_authenticated, keeps_validated
              || (apply keeps_of_db_same;
                  eauto using login_db, authenticated_db, get_tasks_db,
                    get_task_db, get_task_statistics_db, read_users_me_db));
        specialize (Hk w Hw); by destruct (h w)
    end.
Qed.

Lemma handle_keeps (I : database → Prop) hash verify mac now req :
  (∀ now user, keeps I (register hash now user)) →
  (∀ now task u, keeps I (create_task now task u)) →
  (∀ now task_id task_update u, keeps I (update_task now task_id task_update u)) →
  (∀ task_id u, keeps I (delete_task task_id u)) →
  ∀ w, I (db w) → I (db (handle hash verify mac now req w).2).
Proof.
  intros Hreg Hcreate Hupdate Hdelete w Hw.
  pose proof (handle_keeps_unless_register I hash verify mac now req
                Hcreate Hupdate Hdelete w Hw) as Hrest.
  destruct req; try exact Hrest.
  unfold handle. specialize (Hreg now user w Hw).
  by destruct (register hash now user w).
Qed.

(** ** The primary keys stay distinct along every request *)

Lemma foldl_assign_id now sets t : Task.id (foldl (assign now) t sets) = Task.id t.
Proof. by destruct (foldl_assign_keeps_optionals now sets t) as [-> _]. Qed.

Lemma fresh_key_distinct {A} (key : A → Z) (l : list A) (seq : Z) (r : A) :
  NoDup (key <$> l) → Forall (λ x, key x ≤ seq) l → key r = seq + 1 →
  NoDup (key <$> (l ++ [r])) ∧ Forall (λ x, key x ≤ seq + 1) (l ++ [r]).
Proof.
  intros Hnd Hle Hr. split.
  - rewrite fmap_app. apply NoDup_app. split; [done|]. split.
    + intros k Hk Hk'. apply list_elem_of_fmap in Hk as (x & -> & Hx).
      apply list_elem_of_singleton in Hk'.
      rewrite Forall_forall in Hle. specialize (Hle x Hx). simpl in *. lia.
    + apply NoDup_singleton.
  - apply Forall_app. split.
    + eapply Forall_impl; [exact Hle|]. intros x Hx. simpl in *. lia.
    + apply Forall_singleton. lia.
Qed.

Lemma keys_distinct_filter {A} (key : A → Z) (P : A → Prop)
    `{∀ x, Decision (P x)} (l : list A) :
  NoDup (key <$> l) → NoDup (key <$> filter P l).
Proof.
  induction l as [|x l IH]; [done|].
  rewrite fmap_cons, NoDup_cons. intros [Hx Hnd].
  rewrite filter_cons. case_decide; [|by apply IH].
  rewrite fmap_cons. apply NoDup_cons. split; [|by apply IH].
  intros Hin. apply Hx.
  apply list_elem_of_fmap in Hin as (y & -> & Hy).
  apply list_elem_of_filter in Hy as [_ Hy]. by apply list_elem_of_fmap_2.
Qed.

Lemma foldl_assign_user_id now sets t :
  Task.user_id (foldl (assign now) t sets) = Task.user_id t.
Proof.
  revert t. induction sets as [|a sets IH]; intros t; simpl; [done|].
  rewrite IH. by destruct a.
Qed.

Lemma consistent_create_task now task u :
  keeps consistent (create_task now task u).
Proof.
  intros w [Ht Htb Hu Hub].
  destruct (create_task_db now task u w)
    as [[_ ->]|[(_ & Hseq & ->)|(r & _ & Hid & _ & _ & Hseq & ->)]].
  - done.
  - split; simpl; try done.
    eapply Forall_impl; [exact Htb|]. intros t Hle. simpl in *. lia.
  - destruct (fresh_key_distinct Task.id (tasks (db w)) (tasks_id_seq (db w)) r)
      as [H1 H2]; done.
Qed.

Lemma consistent_update_task now task_id task_update u :
  keeps consistent (update_task now task_id task_update u).
Proof.
  intros w [Ht Htb Hu Hub].
  destruct (update_task_db now task_id task_update u w) as (f & -> & Hf & _).
  assert (Hid : ∀ t, Task.id (f t) = Task.id t).
  { intros t. destruct (Hf t) as [->|(_ & sets & ->)]; [done|].
    apply foldl_assign_id. }
  split; simpl; try done.
  - rewrite <- list_fmap_compose.
    erewrite list_fmap_ext; [exact Ht|]. intros i t _. apply Hid.
  - apply Forall_fmap. eapply Forall_impl; [exact Htb|].
    intros t Hle. simpl. by rewrite Hid.
Qed.

Lemma consistent_delete_task task_id u :
  keeps consistent (delete_task task_id u).
Proof.
  intros w [Ht Htb Hu Hub]. rewrite delete_task_db.
  split; simpl; try done.
  - by apply keys_distinct_filter.
  - rewrite Forall_forall in Htb |- *. intros t Hin.
    apply list_elem_of_filter in Hin as [_ Hin]. by apply Htb.
Qed.

Lemma consistent_register hash now user :
  keeps consistent (register hash now user).
Proof.
  intros w [Ht Htb Hu Hub].
  destruct (register_db hash now user w)
    as [[_ ->]|[(_ & Hseq & ->)|(r & _ & Hid & _ & _ & Hseq & ->)]].
  - done.
  - split; simpl; try done.
    eapply Forall_impl; [exact Hub|]. intros t Hle. simpl in *. lia.
  - destruct (fresh_key_distinct User.id (users (db w)) (users_id_seq (db w)) r)
      as [H1 H2]; done.
Qed.

(** X20. Primary keys stay distinct: if the ids of the stored tasks and of
    the stored users are pairwise distinct and not above their sequences (as
    in the empty tables of [init_db]), the same holds after any request. *)
Lemma handle_consistent hash verify mac now req w :
  consistent (db w) → consistent (db (handle hash verify mac now req w).2).
Proof.
  apply (handle_keeps consistent);
    eauto using consistent_register, consistent_create_task,
      consistent_update_task, consistent_delete_task.
Qed.

(** * Further properties of the handlers *)

(** ** Registration and login *)

(** X1. [register] with an email or a username that a stored user already
    has, both of them strings that can be sent to the database (well-formed,
    without NUL character), raises the 400 exception "Email or username
    already registered"; nothing is inserted and the connection is closed
    again. *)
Theorem register_rejects_taken_email_or_username
    (hash : string → string) (now : Z) (user : UserCreate.t) (w : world)
    (u : User.row) :
  adaptable (UserCreate.email user) = true →
  adaptable (UserCreate.username user) = true →
  u ∈ users (db w) →
  User.email u = UserCreate.email user
  ∨ User.username u = UserCreate.username user →
  register hash now user w
  = (Raise (HTTPException 400 "Email or username already registered" []), w).
Proof.
  intros He Hn Hin Htaken. unfold register, select_id_by_email_or_username. run.
  rewrite He, Hn. simpl.
  destruct (filter _ (users (db w))) as [|x xs] eqn:Hsel; simpl.
  - exfalso. apply (filter_nil_not_elem_of _ _ u Hsel); done.
  - by rewrite acquired_and_released.
Qed.

Lemma register_rejects_taken_email_or_username_witness :
  register toy_hash 100
           (UserCreate.mk "someone@example.org" "bob" "pw" None) sample
  = (Raise (HTTPException 400 "Email or username already registered" []),
     sample).
Proof.
  apply (register_rejects_taken_email_or_username toy_hash 100 _ sample bob).
  - reflexivity.
  - reflexivity.
  - by_evaluation.
  - right. reflexivity.
Defined.

(** X2. For a username that can be sent to the database (well-formed,
    without NUL character), [login] answers an unknown username and a
    password that does not verify for a known one with the same 401
    exception (detail and bearer header included), and leaves the world as
    it was: a failed login does not show whether the username exists. *)
Theorem login_failures_are_uniform
    (verify : string → string → bool) (mac : string → string → payload → Z)
    (now : Z) (username password : string) (w : world) :
  adaptable username = true →
  (∀ u, head (filter (λ u, User.username u = username) (users (db w))) = Some u →
        verify password (User.hashed_password u) = false) →
  login verify mac now username password w = (Raise login_refused, w).
Proof.
  intros Hn Hbad. unfold login, select_user_by_username. run.
  rewrite Hn. simpl. rewrite acquired_and_released.
  destruct (filter _ (users (db w))) as [|u us]; simpl in *; [done|].
  by rewrite (Hbad u eq_refl).
Qed.

Lemma login_failures_are_uniform_witness :
  login toy_verify toy_mac 100 "mallory" "builder" sample
  = (Raise login_refused, sample)
  ∧ login toy_verify toy_mac 100 "bob" "wrong" sample
    = (Raise login_refused, sample).
Proof.
  split.
  - apply login_failures_are_uniform; [reflexivity|]. intros u Hu.
    vm_compute in Hu. discriminate.
  - apply login_failures_are_uniform; [reflexivity|]. intros u Hu.
    vm_compute in Hu. injection Hu as <-. vm_compute. reflexivity.
Defined.

Lemma varchar_or_null_fits (n : nat) (v : option string) :
  fits n v → varchar_or_null n v = Some v.
Proof.
  intros Hf. destruct v as [s|]; [|done]. simpl.
  by rewrite (varchar_fits n s) by (by apply Hf).
Qed.

Lemma sendable_option_list (v : option string) (rest : list string) :
  sendable v →
  all_adaptable (option_list v ++ rest) = all_adaptable rest.
Proof.
  intros Hs. destruct v as [s|]; [|done]. simpl. by rewrite (Hs s eq_refl).
Qed.

Lemma register_fresh (hash : string → string) (now : Z) (user : UserCreate.t)
    (w : world) :
  (∀ u, u ∈ users (db w) →
        User.email u ≠ UserCreate.email user
        ∧ User.username u ≠ UserCreate.username user) →
  user_within_widths hash user →
  adaptable_user hash user →
  users_id_seq (db w) < max_serial →
  register hash now user w
  = (Return (Some (registered_row hash now user (db w))),
     {| db := {| users := users (db w) ++ [registered_row hash now user (db w)];
                 tasks := tasks (db w);
                 users_id_seq := users_id_seq (db w) + 1;
                 tasks_id_seq := tasks_id_seq (db w) |};
        conns := conns w |}).
Proof.
  intros Hfree (He & Hn & Hf & Hh) (Hae & Han & Haf & Hah) Hseq.
  unfold register, select_id_by_email_or_username, insert_user, registered_row.
  run.
  assert (Hnone : filter (λ u, User.email u = UserCreate.email user
                               ∨ User.username u = UserCreate.username user)
                         (users (db w)) = []).
  { apply filter_drops_all, Forall_forall. intros u Hu [H|H];
      destruct (Hfree u Hu); done. }
  rewrite Hae, Han, Hnone. simpl.
  rewrite (sendable_option_list _ _ Haf). simpl. rewrite Hah. simpl.
  rewrite (varchar_fits 255 (UserCreate.email user)) by done.
  rewrite (varchar_fits 100) by done.
  rewrite (varchar_or_null_fits 255 _ Hf).
  rewrite (varchar_fits 255 (hash _)) by done.
  rewrite decide_True by done.
  rewrite decide_True; [simpl; by rewrite release_fresh|].
  split; intros Hin; apply list_elem_of_fmap in Hin as (u & Heq & Hu);
    by destruct (Hfree u Hu).
Qed.

(** X3. Registration, login and the bearer dependency compose: when the
    email and the username are free, every string (the password hash
    included) can be sent to the database and fits its column, the users
    sequence is not exhausted and the password verifies against its own
    hash, [register] stores and returns the new user (next id, active);
    after that [login] with the same username and password returns an
    access token and a refresh token for that id, and [get_current_user]
    resolves the access token, during its half hour, to the registered
    user. *)
Theorem register_login_current_user
    (hash : string → string) (verify : string → string → bool)
    (mac : string → string → payload → Z)
    (now : Z) (user : UserCreate.t) (w : world) :
  consistent (db w) →
  (∀ u, u ∈ users (db w) →
        User.email u ≠ UserCreate.email user
        ∧ User.username u ≠ UserCreate.username user) →
  user_within_widths hash user →
  adaptable_user hash user →
  users_id_seq (db w) < max_serial →
  verify (UserCreate.password user) (hash (UserCreate.password user)) = true →
  let new_user := registered_row hash now user (db w) in
  ∃ w1,
    register hash now user w = (Return (Some new_user), w1)
    ∧ users (db w1) = users (db w) ++ [new_user]
    ∧ ∀ later,
        let access :=
          create_access_token mac later
            {| sub := Some (User.id new_user); exp := None |}
            (Some (minutes ACCESS_TOKEN_EXPIRE_MINUTES)) in
        login verify mac later (UserCreate.username user)
              (UserCreate.password user) w1
        = (Return {| access_token := access;
                     refresh_token :=
                       create_refresh_token mac later
                         {| sub := Some (User.id new_user); exp := None |};
                     token_type := "bearer" |}, w1)
        ∧ ∀ instant, instant < later + 1800 →
            get_current_user mac instant access w1 = (Return new_user, w1).
Proof.
  intros Hc Hfree Hfit Hsend Hseq Hverify new_user.
  eexists. split; [by apply register_fresh|]. split; [done|].
  intros later access. split.
  - unfold login, select_user_by_username. run.
    destruct Hsend as (_ & -> & _). simpl. rewrite release_fresh.
    rewrite filter_app, filter_cons_True by done.
    assert (Hnone : filter (λ u, User.username u = UserCreate.username user)
                           (users (db w)) = []).
    { apply filter_drops_all, Forall_forall. intros u Hu.
      by destruct (Hfree u Hu). }
    rewrite Hnone. simpl. by rewrite Hverify.
  - intros instant Hearly. subst access. rewrite access_token_expiry.
    unfold get_current_user. rewrite jwt_decode_own_token. simpl.
    rewrite decide_False by (unfold minutes, ACCESS_TOKEN_EXPIRE_MINUTES; lia).
    simpl. unfold select_user_by_id. run. rewrite release_fresh.
    rewrite filter_app, filter_cons_True by done.
    assert (Hnone : filter (λ u, User.id u = users_id_seq (db w) + 1)
                           (users (db w)) = []).
    { apply filter_drops_all, Forall_forall. intros u Hu Hid.
      pose proof (user_ids_issued _ Hc) as Hle.
      rewrite Forall_forall in Hle. specialize (Hle u Hu). simpl in Hle. lia. }
    rewrite Hnone. done.
Qed.

Lemma register_login_current_user_witness :
  ∃ w1,
    register toy_hash 100
             (UserCreate.mk "dave@example.org" "dave" "secret" None) startup
    = (Return (Some (User.mk 1 "dave@example.org" "dave" None "#secret" true 100)),
       w1)
    ∧ users (db w1)
      = [User.mk 1 "dave@example.org" "dave" None "#secret" true 100].
Proof.
  destruct (register_login_current_user toy_hash toy_verify toy_mac 100
              (UserCreate.mk "dave@example.org" "dave" "secret" None) startup)
    as (w1 & Hreg & Husers & _).
  - apply init_db_consistent.
  - intros u Hu. inversion Hu.
  - by_inspection.
  - by_inspection.
  - reflexivity.
  - vm_compute. reflexivity.
  - exists w1. split; [exact Hreg|exact Husers].
Defined.

(** ** Bearer tokens *)

(** X4. A refresh token carries the same claims as an access token, only
    with a seven-day expiry, and [get_current_user] does not tell them
    apart: presented as bearer token, a refresh token resolves to its user
    at every instant before issue time plus seven days, and is refused from
    then on. *)
Theorem refresh_token_is_accepted_as_bearer
    (mac : string → string → payload → Z)
    (issued user_id instant : Z) (w : world) (u : User.row) :
  head (filter (λ u, User.id u = user_id) (users (db w))) = Some u →
  let t := create_refresh_token mac issued
             {| sub := Some user_id; exp := None |} in
  (instant < issued + 604800 →
     get_current_user mac instant t w = (Return u, w))
  ∧ (issued + 604800 ≤ instant →
       get_current_user mac instant t w = (Raise credentials_exception, w)).
Proof.
  intros Hu t. subst t. unfold create_refresh_token, get_current_user.
  rewrite jwt_decode_own_token. simpl.
  unfold days, REFRESH_TOKEN_EXPIRE_DAYS. split; intros Hi.
  - rewrite decide_False by lia. simpl. unfold select_user_by_id. run.
    by rewrite acquired_and_released, Hu.
  - by rewrite decide_True by lia.
Qed.

Lemma refresh_token_is_accepted_as_bearer_witness :
  get_current_user toy_mac 600000
    (create_refresh_token toy_mac 0 {| sub := Some 2; exp := None |}) sample
  = (Return bob, sample).
Proof.
  refine (proj1 (refresh_token_is_accepted_as_bearer toy_mac 0 2 600000 sample
                   bob _) _).
  - vm_compute. reflexivity.
  - lia.
Defined.



(** ** Reading, creating and deleting a task *)

Lemma get_task_finds (w : world) (t : Task.row) (u : User.row) :
  NoDup (Task.id <$> tasks (db w)) →
  t ∈ tasks (db w) →
  Task.user_id t = User.id u →
  get_task (Task.id t) u w = (Return t, w).
Proof.
  intros Hnd Hin Hown. unfold get_task, select_tasks. run.
  rewrite (select_own_by_key _ _ _ Hnd Hin Hown). simpl.
  by rewrite acquired_and_released.
Qed.

(** X6. [get_task] on the id of a stored task returns that very row when
    the caller owns it and raises 404 otherwise; in both cases the world is
    as before. *)
Theorem get_task_returns_the_row_to_its_owner_only
    (w : world) (t : Task.row) (u : User.row) :
  NoDup (Task.id <$> tasks (db w)) →
  t ∈ tasks (db w) →
  get_task (Task.id t) u w
  = (if decide (Task.user_id t = User.id u) then Return t
     else Raise task_not_found, w).
Proof.
  intros Hnd Hin. case_decide as Hown.
  - by apply get_task_finds.
  - apply get_task_no_row. by apply select_by_key_other_owner.
Qed.

Lemma get_task_returns_the_row_to_its_owner_only_witness :
  get_task 2 alice sample = (Return taxes, sample)
  ∧ get_task 2 bob sample = (Raise task_not_found, sample).
Proof.
  split.
  - apply (get_task_returns_the_row_to_its_owner_only sample taxes alice);
      by_evaluation.
  - apply (get_task_returns_the_row_to_its_owner_only sample taxes bob);
      by_evaluation.
Defined.

Lemma filter_ext_in {A} (P Q : A → Prop) `{∀ x, Decision (P x)}
    `{∀ x, Decision (Q x)} (l : list A) :
  (∀ x, x ∈ l → (P x ↔ Q x)) → filter P l = filter Q l.
Proof.
  induction l as [|x l IH]; intros Hext; [done|].
  rewrite !filter_cons, IH by (intros y Hy; apply Hext; (by right)).
  pose proof (Hext x (list_elem_of_here x l)) as Hx.
  destruct (decide (P x)), (decide (Q x)); tauto.
Qed.

Lemma create_task_inserts (now : Z) (task : TaskCreate.t) (u : User.row)
    (w : world) :
  u ∈ users (db w) →
  create_within_widths task →
  adaptable_create task →
  tasks_id_seq (db w) < max_serial →
  create_task now task u w
  = (Return (Some (created_row now task u (db w))),
     {| db := {| users := users (db w);
                 tasks := tasks (db w) ++ [created_row now task u (db w)];
                 users_id_seq := users_id_seq (db w);
                 tasks_id_seq := tasks_id_seq (db w) + 1 |};
        conns := conns w |}).
Proof.
  intros Hu [Ht Hp] (Hat & Had & Hap) Hseq.
  unfold create_task, insert_task, created_row. run.
  rewrite Hat, (sendable_option_list _ _ Had). simpl. rewrite Hap. simpl.
  rewrite (varchar_fits 255), (varchar_fits 20) by done.
  rewrite decide_True by done.
  rewrite decide_True by (by apply list_elem_of_fmap_2).
  simpl. by rewrite release_fresh.
Qed.

(** X7. [create_task] for a stored user, with strings that can be sent to
    the database (well-formed, without NUL character), title and priority
    within their columns and a tasks sequence that is not exhausted,
    inserts one row: owned by the caller, status "pending", both timestamps
    the current instant, and an id that no stored task has.  It returns
    that row, leaves every other row and the connections as they were, and
    [get_task] on the new id then returns the row to the caller. *)
Theorem create_task_then_get_task
    (now : Z) (task : TaskCreate.t) (u : User.row) (w : world) :
  consistent (db w) →
  u ∈ users (db w) →
  create_within_widths task →
  adaptable_create task →
  tasks_id_seq (db w) < max_serial →
  let r := created_row now task u (db w) in
  ∃ w1,
    create_task now task u w = (Return (Some r), w1)
    ∧ tasks (db w1) = tasks (db w) ++ [r]
    ∧ users (db w1) = users (db w)
    ∧ conns w1 = conns w
    ∧ (Task.id r ∉ Task.id <$> tasks (db w))
    ∧ get_task (Task.id r) u w1 = (Return r, w1).
Proof.
  intros Hc Hu Hfit Hsend Hseq r. eexists.
  split; [by apply create_task_inserts|]. repeat split.
  - intros Hin. apply list_elem_of_fmap in Hin as (t & Hid & Ht).
    pose proof (task_ids_issued _ Hc) as Hle. rewrite Forall_forall in Hle.
    specialize (Hle t Ht). simpl in *. lia.
  - apply get_task_finds; simpl;
      [|apply elem_of_app; right; apply list_elem_of_here|done].
    by apply (fresh_key_distinct Task.id (tasks (db w)) (tasks_id_seq (db w)) r
                (task_ids_distinct _ Hc) (task_ids_issued _ Hc)).
Qed.

Lemma create_task_then_get_task_witness :
  ∃ w1,
    create_task 100 (TaskCreate.mk "call home" None "medium" None) carol sample
    = (Return (Some (Task.mk 4 3 "call home" None "medium" "pending" None
                             100 100)), w1)
    ∧ get_task 4 carol w1
      = (Return (Task.mk 4 3 "call home" None "medium" "pending" None 100 100),
         w1).
Proof.
  destruct (create_task_then_get_task 100
              (TaskCreate.mk "call home" None "medium" None) carol sample)
    as (w1 & Hcreate & _ & _ & _ & _ & Hget).
  - split; by_evaluation.
  - by_evaluation.
  - by_inspection.
  - by_inspection.
  - reflexivity.
  - exists w1. split; [exact Hcreate|exact Hget].
Defined.

(** X8. [delete_task] by the owner removes exactly the row with that id,
    keeps every other row in place, leaves users and connections alone and
    returns normally (204); afterwards the id is gone: [get_task] and a
    second [delete_task] on it raise 404. *)
Theorem delete_task_removes_the_row
    (w : world) (t : Task.row) (u : User.row) :
  NoDup (Task.id <$> tasks (db w)) →
  t ∈ tasks (db w) →
  Task.user_id t = User.id u →
  let w1 := {| db := with_tasks (db w)
                       (filter (λ r, Task.id r ≠ Task.id t) (tasks (db w)));
               conns := conns w |} in
  delete_task (Task.id t) u w = (Return tt, w1)
  ∧ get_task (Task.id t) u w1 = (Raise task_not_found, w1)
  ∧ delete_task (Task.id t) u w1 = (Raise task_not_found, w1).
Proof.
  intros Hnd Hin Hown w1.
  assert (Hgone : filter (matches [IdEq (Task.id t); UserIdEq (User.id u)])
                         (tasks (db w1)) = []).
  { apply select_by_missing_key. simpl. intros Hid.
    apply list_elem_of_fmap in Hid as (r & Hid & Hr).
    apply list_elem_of_filter in Hr as [Hne _]. done. }
  split; [|split; [by apply get_task_no_row|by apply delete_task_no_row]].
  unfold delete_task, delete_tasks. run.
  rewrite (select_own_by_key _ _ _ Hnd Hin Hown). simpl.
  rewrite release_fresh. subst w1. do 3 f_equal.
  apply filter_ext_in. intros r Hr. rewrite <- Hown.
  by rewrite (matches_key_of_owner _ _ _ Hnd Hin Hr).
Qed.

Lemma delete_task_removes_the_row_witness :
  delete_task 1 alice sample
  = (Return tt, {| db := with_tasks (db sample) [taxes; groceries];
                   conns := [] |}).
Proof.
  refine (proj1 (delete_task_removes_the_row sample report alice _ _ _)).
  - by_evaluation.
  - by_evaluation.
  - reflexivity.
Defined.

(** ** What the handlers leave alone *)

(** X9. A task handler called for user [u] never changes, removes or adds
    a row of another user: after [create_task], [update_task] and
    [delete_task], whatever their arguments and outcome, the rows not owned
    by [u] are the same rows in the same order. *)
Theorem other_users_rows_are_untouched
    (now : Z) (task : TaskCreate.t) (task_id : Z) (task_update : TaskUpdate.t)
    (u : User.row) (w : world) :
  foreign_to (User.id u) (tasks (db (create_task now task u w).2))
  = foreign_to (User.id u) (tasks (db w))
  ∧ foreign_to (User.id u)
      (tasks (db (update_task now task_id task_update u w).2))
    = foreign_to (User.id u) (tasks (db w))
  ∧ foreign_to (User.id u) (tasks (db (delete_task task_id u w).2))
    = foreign_to (User.id u) (tasks (db w)).
Proof.
  unfold foreign_to. split; [|split].
  - destruct (create_task_db now task u w)
      as [[_ ->]|[(_ & _ & ->)|(r & _ & _ & Hown & _ & _ & ->)]]; try done.
    simpl. rewrite filter_app, filter_cons_False by (simpl; tauto).
    by rewrite filter_nil, app_nil_r.
  - destruct (update_task_db now task_id task_update u w) as (f & -> & Hf & _).
    simpl. induction (tasks (db w)) as [|t ts IH]; [done|].
    rewrite fmap_cons, !filter_cons, IH.
    destruct (Hf t) as [->|(Hown & sets & ->)]; [done|].
    pose proof (foldl_assign_user_id now sets t) as Huid.
    rewrite !decide_False by (rewrite ?Huid; tauto). done.
  - rewrite delete_task_db. simpl.
    induction (tasks (db w)) as [|t ts IH]; [done|].
    rewrite (filter_cons (λ t, ¬ matches _ t)).
    destruct (decide (¬ matches [IdEq task_id; UserIdEq (User.id u)] t))
      as [Hm|Hm].
    + by rewrite !filter_cons, IH.
    + apply dec_stable in Hm.
      apply Forall_cons in Hm as [_ Hm]. apply Forall_cons in Hm as [Hown _].
      simpl in Hown. rewrite IH, filter_cons_False by tauto. done.
Qed.

(** X10. The requests that only read (login, [/users/me], the listing, a
    single task, the summary) leave the tables and both sequences exactly
    as they were, whatever they answer; and unless they are answered 500,
    they leave the open connections as they were too, so that the whole
    world is unchanged. *)
Theorem read_only_requests_change_nothing
    (get_password_hash : string → string)
    (verify_password : string → string → bool)
    (mac : string → string → payload → Z)
    (now : Z) (req : request) (w : world) :
  is_read_only req = true →
  db (handle get_password_hash verify_password mac now req w).2 = db w
  ∧ (status_code (handle get_password_hash verify_password mac now req w).1
     ≠ 500 →
     (handle get_password_hash verify_password mac now req w).2 = w).
Proof.
  intros Hro.
  assert (Hdb : db (handle get_password_hash verify_password mac now req w).2
                = db w).
  { unfold handle.
    destruct req; try discriminate Hro;
      match goal with
      | |- context [let (_, _) := ?h w in _] =>
          assert (Hsame : db (h w).2 = db w)
            by eauto using login_db, authenticated_db, get_tasks_db,
                 get_task_db, get_task_statistics_db, read_users_me_db;
          by destruct (h w)
      end. }
  split; [exact Hdb|]. intros Hcode.
  pose proof (connections_released get_password_hash verify_password mac now
                req w Hcode) as Hconns.
  destruct (handle _ _ _ _ _ w).2 as [d cs]. destruct w as [d0 cs0].
  simpl in *. by subst.
Qed.

Lemma read_only_requests_change_nothing_witness :
  (handle toy_hash toy_verify toy_mac 100 (GET_tasks (Some (toy_token 1)) None None)
          sample).2 = sample.
Proof.
  refine (proj2 (read_only_requests_change_nothing toy_hash toy_verify toy_mac
                   100 (GET_tasks (Some (toy_token 1)) None None) sample _) _).
  - reflexivity.
  - vm_compute. discriminate.
Defined.

Lemma create_task_users now task u w :
  users (db (create_task now task u w).2) = users (db w).
Proof.
  by destruct (create_task_db now task u w)
    as [[_ ->]|[(_ & _ & ->)|(r & _ & _ & _ & _ & _ & ->)]].
Qed.

Lemma update_task_users now task_id task_update u w :
  users (db (update_task now task_id task_update u w).2) = users (db w).
Proof.
  by destruct (update_task_db now task_id task_update u w) as (f & -> & _).
Qed.

Lemma delete_task_users task_id u w :
  users (db (delete_task task_id u w).2) = users (db w).
Proof. by rewrite delete_task_db. Qed.

(** What [register] can do to the rows: nothing, or append one user whose
    email and username were not yet stored. *)
Lemma register_outcome hash now user w :
  tasks (db (register hash now user w).2) = tasks (db w)
  ∧ (users (db (register hash now user w).2) = users (db w)
     ∨ ∃ r, users (db (register hash now user w).2) = users (db w) ++ [r]
            ∧ (User.email r ∉ User.email <$> users (db w))
            ∧ (User.username r ∉ User.username <$> users (db w))).
Proof.
  destruct (register_db hash now user w)
    as [[_ ->]|[(_ & _ & ->)|(r & _ & _ & He & Hn & _ & ->)]];
    (split; [done|]); [by left|by left|].
  right. by exists r.
Qed.

(** X11. No request changes or removes a stored user: after any request
    the users table begins with the rows it had before, unchanged and in
    the same order (ids, emails, password hashes and flags included); and
    every request other than a registration leaves the table exactly as it
    was. *)
Theorem stored_users_are_never_changed
    (get_password_hash : string → string)
    (verify_password : string → string → bool)
    (mac : string → string → payload → Z)
    (now : Z) (req : request) (w : world) :
  (users (db w)
     `prefix_of` users (db (handle get_password_hash verify_password mac now
                                   req w).2))
  ∧ match req with
    | POST_register _ => True
    | _ => users (db (handle get_password_hash verify_password mac now req w).2)
           = users (db w)
    end.
Proof.
  split.
  - apply (handle_keeps (λ d, users (db w) `prefix_of` users d)); [..|done].
    + intros now' user w' Hpre.
      destruct (register_outcome get_password_hash now' user w')
        as [_ [->|(r & -> & _)]]; [done|].
      by apply prefix_app_r.
    + intros now' task u w' Hpre. by rewrite create_task_users.
    + intros now' task_id tu u w' Hpre. by rewrite update_task_users.
    + intros task_id u w' Hpre. by rewrite delete_task_users.
  - apply (handle_keeps_unless_register (λ d, users d = users (db w)));
      [..|done].
    + intros now' task u w' Hsame. by rewrite create_task_users.
    + intros now' task_id tu u w' Hsame. by rewrite update_task_users.
    + intros task_id u w' Hsame. by rewrite delete_task_users.
Qed.

(** X12. Emails and usernames stay unique: if no two stored users share an
    email and no two share a username, the same holds after any request. *)
Theorem emails_and_usernames_stay_unique
    (get_password_hash : string → string)
    (verify_password : string → string → bool)
    (mac : string → string → payload → Z)
    (now : Z) (req : request) (w : world) :
  registered_once (db w) →
  registered_once (db (handle get_password_hash verify_password mac now req w).2).
Proof.
  apply (handle_keeps registered_once).
  - intros now' user w' [He Hn]. unfold registered_once.
    destruct (register_outcome get_password_hash now' user w')
      as [_ [->|(r & -> & Her & Hnr)]]; [done|].
    rewrite !fmap_app. split; apply NoDup_app; (split; [done|]);
      (split; [|apply NoDup_singleton]);
      intros x Hx Hx'; apply list_elem_of_singleton in Hx'; by subst.
  - intros now' task u w' Hi. unfold registered_once.
    by rewrite create_task_users.
  - intros now' task_id tu u w' Hi. unfold registered_once.
    by rewrite update_task_users.
  - intros task_id u w' Hi. unfold registered_once.
    by rewrite delete_task_users.
Qed.

Lemma emails_and_usernames_stay_unique_witness :
  registered_once
    (db (toy_handle 100
           (POST_register (UserCreate.mk "dave@example.org" "dave" "secret" None))
           sample).2).
Proof.
  apply (emails_and_usernames_stay_unique toy_hash toy_verify toy_mac 100
           (POST_register (UserCreate.mk "dave@example.org" "dave" "secret" None))
           sample).
  split; by_evaluation.
Defined.

(** X13. Every task keeps an existing owner: if the owner of every stored
    task is a stored user, the same holds after any request. *)
Theorem task_owners_always_exist
    (get_password_hash : string → string)
    (verify_password : string → string → bool)
    (mac : string → string → payload → Z)
    (now : Z) (req : request) (w : world) :
  owners_exist (db w) →
  owners_exist (db (handle get_password_hash verify_password mac now req w).2).
Proof.
  apply (handle_keeps owners_exist); unfold owners_exist.
  - intros now' user w' Ho.
    destruct (register_outcome get_password_hash now' user w')
      as [-> [->|(r & -> & _)]]; [done|].
    eapply Forall_impl; [exact Ho|]. intros t Ht. simpl in *.
    rewrite fmap_app. apply elem_of_app. by left.
  - intros now' task u w' Ho.
    destruct (create_task_db now' task u w')
      as [[_ ->]|[(_ & _ & ->)|(r & _ & _ & Hown & Hfk & _ & ->)]];
      try done.
    simpl. apply Forall_app. split; [done|].
    apply Forall_singleton. by rewrite Hown.
  - intros now' task_id tu u w' Ho.
    destruct (update_task_db now' task_id tu u w') as (f & -> & Hf & _).
    simpl. apply Forall_fmap. eapply Forall_impl; [exact Ho|].
    intros t Ht. simpl.
    destruct (Hf t) as [->|(_ & sets & ->)]; [done|].
    by rewrite foldl_assign_user_id.
  - intros task_id u w' Ho. rewrite delete_task_db. simpl.
    rewrite Forall_forall in Ho |- *. intros t Ht.
    apply list_elem_of_filter in Ht as [_ Ht]. by apply Ho.
Qed.

Lemma task_owners_always_exist_witness :
  owners_exist
    (db (toy_handle 100
           (POST_tasks (Some (toy_token 3))
              (TaskCreate.mkBody (Value "sing") Absent Absent Absent))
           sample).2).
Proof.
  apply (task_owners_always_exist toy_hash toy_verify toy_mac 100
           (POST_tasks (Some (toy_token 3))
              (TaskCreate.mkBody (Value "sing") Absent Absent Absent))
           sample).
  unfold owners_exist. by_evaluation.
Defined.

Lemma handle_consistent_witness :
  consistent
    (db (toy_handle 100
           (POST_tasks (Some (toy_token 3))
              (TaskCreate.mkBody (Value "sing") Absent Absent Absent))
           sample).2).
Proof.
  apply (handle_consistent toy_hash toy_verify toy_mac 100
           (POST_tasks (Some (toy_token 3))
              (TaskCreate.mkBody (Value "sing") Absent Absent Absent))
           sample).
  split; by_evaluation.
Defined.

Lemma delete_task_sequence task_id u w :
  tasks_id_seq (db (delete_task task_id u w).2) = tasks_id_seq (db w).
Proof.
  unfold delete_task, delete_tasks. run.
  by destruct (filter (matches _) (tasks (db w))).
Qed.

(** X14. A task id is not handed out again after its task was deleted:
    when a stored task is deleted and the same user then creates a task
    (strings that can be sent to the database and fit their columns, tasks
    sequence not exhausted), the insert succeeds and the new row's id is
    greater than the deleted one. *)
Theorem deleted_id_is_not_reused
    (now : Z) (task : TaskCreate.t) (t : Task.row) (u : User.row) (w : world) :
  consistent (db w) →
  t ∈ tasks (db w) →
  u ∈ users (db w) →
  create_within_widths task →
  adaptable_create task →
  tasks_id_seq (db w) < max_serial →
  ∃ r w2,
    create_task now task u (delete_task (Task.id t) u w).2 = (Return (Some r), w2)
    ∧ Task.id t < Task.id r.
Proof.
  intros Hc Ht Hu Hfit Hsend Hseq. do 2 eexists. split.
  - apply create_task_inserts; try done.
    + by rewrite delete_task_users.
    + by rewrite delete_task_sequence.
  - unfold created_row. simpl. rewrite delete_task_sequence.
    pose proof (task_ids_issued _ Hc) as Hle. rewrite Forall_forall in Hle.
    specialize (Hle t Ht). simpl in Hle. lia.
Qed.

Lemma deleted_id_is_not_reused_witness :
  ∃ r w2,
    create_task 100 (TaskCreate.mk "again" None "low" None) bob
                (delete_task 3 bob sample).2 = (Return (Some r), w2)
    ∧ 3 < Task.id r.
Proof.
  apply (deleted_id_is_not_reused 100 (TaskCreate.mk "again" None "low" None)
           groceries bob sample).
  - split; by_evaluation.
  - by_evaluation.
  - by_evaluation.
  - by_inspection.
  - by_inspection.
  - reflexivity.
Defined.

(** ** The summary *)

Lemma owner_condition user_id (ts : list Task.row) :
  filter (matches [UserIdEq user_id]) ts = filter (owned_by user_id) ts.
Proof.
  apply list_filter_iff. intros t. unfold matches, owned_by.
  by rewrite Forall_singleton.
Qed.

(** X15. The summary always consists of one row, for every user, and its
    [total_tasks] is the number of tasks the user owns (0 for a user
    without tasks); the summary is computed from the user's own rows only,
    so two worlds in which the user owns the same tasks give the same
    summary, whatever other users own. *)
Theorem summary_counts_own_tasks_only
    (now : Z) (u : User.row) (w : world) :
  (∃ s, get_task_statistics now u w = (Return (Some s), w)
        ∧ total_tasks s = count_where (owned_by (User.id u)) (tasks (db w)))
  ∧ ∀ w', filter (owned_by (User.id u)) (tasks (db w'))
          = filter (owned_by (User.id u)) (tasks (db w)) →
          (get_task_statistics now u w').1 = (get_task_statistics now u w).1.
Proof.
  split.
  - rewrite get_task_statistics_runs. simpl. eexists. split; [reflexivity|].
    simpl. by rewrite owner_condition.
  - intros w' Hsame. rewrite !get_task_statistics_runs. simpl.
    by rewrite !owner_condition, Hsame.
Qed.

Lemma summary_counts_own_tasks_only_witness :
  (get_task_statistics 100 alice
     {| db := with_tasks (db sample) [report; taxes]; conns := [] |}).1
  = (get_task_statistics 100 alice sample).1.
Proof.
  apply (proj2 (summary_counts_own_tasks_only 100 alice sample)).
  vm_compute. reflexivity.
Defined.

Lemma sql_eq_str_true (a b : string) : sql_eq_str a b = Some true ↔ a = b.
Proof.
  unfold sql_eq_str. case_bool_decide; split; intros; try done.
Qed.

(** X16. For a user who owns at least one task, each count of the summary
    is the number of the user's tasks with that property: [completed],
    [in_progress] and [pending] count the tasks with exactly that status,
    [high_priority] those with priority "high", [overdue] those with a due
    date strictly before the current instant and a status other than
    "completed". *)
Theorem summary_counts_of_user_with_tasks
    (now : Z) (u : User.row) (w : world) :
  filter (owned_by (User.id u)) (tasks (db w)) ≠ [] →
  let own := filter (owned_by (User.id u)) (tasks (db w)) in
  ∃ s, get_task_statistics now u w = (Return (Some s), w)
       ∧ completed s = Some (count_where (λ t, Task.status t = "completed") own)
       ∧ in_progress s
         = Some (count_where (λ t, Task.status t = "in_progress") own)
       ∧ pending s = Some (count_where (λ t, Task.status t = "pending") own)
       ∧ high_priority s = Some (count_where (λ t, Task.priority t = "high") own)
       ∧ overdue s = Some (count_where (is_overdue now) own).
Proof.
  intros Hne own. rewrite get_task_statistics_runs. simpl.
  eexists. split; [reflexivity|]. simpl. rewrite owner_condition. fold own.
  rewrite (sql_sum_case_when (λ t, sql_eq_str (Task.status t) "completed")),
    (sql_sum_case_when (λ t, sql_eq_str (Task.status t) "in_progress")),
    (sql_sum_case_when (λ t, sql_eq_str (Task.status t) "pending")),
    (sql_sum_case_when (λ t, sql_eq_str (Task.priority t) "high")),
    (sql_sum_case_when
       (λ t, sql_and (sql_lt (Task.due_date t) now)
                     (sql_ne_str (Task.status t) "completed"))) by done.
  unfold count_where.
  repeat split; do 3 f_equal; apply list_filter_iff; intros t;
    apply sql_eq_str_true || apply overdue_condition.
Qed.

Lemma summary_counts_of_user_with_tasks_witness :
  ∃ s, get_task_statistics 100 alice sample = (Return (Some s), sample)
       ∧ completed s = Some 1 ∧ pending s = Some 1 ∧ overdue s = Some 0.
Proof.
  destruct (summary_counts_of_user_with_tasks 100 alice sample)
    as (s & Hrun & Hc & _ & Hp & _ & Ho).
  - vm_compute. discriminate.
  - exists s. split; [exact Hrun|]. split; [|split].
    + rewrite Hc. vm_compute. reflexivity.
    + rewrite Hp. vm_compute. reflexivity.
    + rewrite Ho. vm_compute. reflexivity.
Defined.

Lemma status_counts_of_user_with_tasks_witness :
  ∃ s p i c, get_task_statistics 100 alice sample = (Return (Some s), sample)
             ∧ pending s = Some p ∧ in_progress s = Some i ∧ completed s = Some c
             ∧ p + i + c = total_tasks s.
Proof.
  apply (status_counts_of_user_with_tasks 100 alice sample).
  - vm_compute. discriminate.
  - by_evaluation.
Defined.

(** ** Validation of a create request *)

(** X17. A create request without title, with a null title or with a null
    priority is answered 422 once the caller is authenticated; the handler
    is not entered, no row is created and nothing else changes. *)
Theorem create_without_title_is_unprocessable
    (get_password_hash : string → string)
    (verify_password : string → string → bool)
    (mac : string → string → payload → Z)
    (now : Z) (t : token) (body : TaskCreate.body) (u : User.row) (w : world) :
  get_current_user mac now t w = (Return u, w) →
  required (TaskCreate.b_title body) = None
  ∨ TaskCreate.b_priority body = Null →
  handle get_password_hash verify_password mac now (POST_tasks (Some t) body) w
  = (unprocessable, w).
Proof.
  intros Hauth Hbad. unfold handle, authenticated. run. rewrite Hauth.
  assert (Hparse : TaskCreate.parse body = None).
  { unfold TaskCreate.parse. destruct Hbad as [->| ->]; [done|].
    by destruct (required _). }
  by rewrite Hparse.
Qed.

Lemma create_without_title_is_unprocessable_witness :
  handle toy_hash toy_verify toy_mac 100
         (POST_tasks (Some (toy_token 1))
            (TaskCreate.mkBody Absent (Value "no title") Absent Absent)) sample
  = (unprocessable, sample).
Proof.
  apply (create_without_title_is_unprocessable toy_hash toy_verify toy_mac 100
           (toy_token 1) _ alice sample).
  - vm_compute. reflexivity.
  - left. reflexivity.
Defined.

(** ** Update and read back *)

Lemma partially_updated_twice now task_update t :
  partially_updated now task_update (partially_updated now task_update t)
  = partially_updated now task_update t.
Proof.
  destruct task_update as [ti de pr st du].
  by destruct ti, de, pr, st, du.
Qed.

(** X18. After an update of an own task whose supplied strings can be sent
    to the database and fit their columns, [get_task] returns the updated
    row to its owner, and sending the same update again at the same instant
    returns the same row and changes nothing further. *)
Theorem update_task_then_get_task
    (now : Z) (w : world) (t : Task.row) (u : User.row)
    (task_update : TaskUpdate.t) :
  NoDup (Task.id <$> tasks (db w)) →
  t ∈ tasks (db w) →
  Task.user_id t = User.id u →
  within_column_widths task_update →
  adaptable_update task_update →
  let w1 := (update_task now (Task.id t) task_update u w).2 in
  update_task now (Task.id t) task_update u w
  = (Return (Some (partially_updated now task_update t)), w1)
  ∧ get_task (Task.id t) u w1 = (Return (partially_updated now task_update t), w1)
  ∧ update_task now (Task.id t) task_update u w1
    = (Return (Some (partially_updated now task_update t)), w1).
Proof.
  intros Hnd Hin Hown Hfit Hsend w1. subst w1.
  rewrite (update_task_runs now w t u task_update Hnd Hin Hown Hfit Hsend).
  simpl.
  set (f := λ r, if decide (Task.id r = Task.id t)
                 then partially_updated now task_update r else r).
  set (t1 := partially_updated now task_update t).
  set (w1 := {| db := with_tasks (db w) (f <$> tasks (db w)); conns := conns w |}).
  assert (Hids : Task.id <$> tasks (db w1) = Task.id <$> tasks (db w)).
  { simpl. rewrite <- list_fmap_compose. apply list_fmap_ext.
    intros i r _. simpl. unfold f. by case_decide. }
  assert (Hnd1 : NoDup (Task.id <$> tasks (db w1))) by by rewrite Hids.
  assert (Hin1 : t1 ∈ tasks (db w1)).
  { simpl. apply list_elem_of_fmap. exists t. split; [|done].
    unfold f. by rewrite decide_True. }
  split; [done|]. split.
  - exact (get_task_finds w1 t1 u Hnd1 Hin1 Hown).
  - pose proof (update_task_runs now w1 t1 u task_update Hnd1 Hin1 Hown Hfit
                  Hsend) as Hagain.
    change (Task.id t1) with (Task.id t) in Hagain. rewrite Hagain.
    subst t1. rewrite partially_updated_twice. f_equal.
    unfold w1 at 2. f_equal. simpl. unfold with_tasks. simpl. f_equal.
    rewrite <- list_fmap_compose. apply list_fmap_ext. intros i r _. simpl.
    unfold f. destruct (decide (Task.id r = Task.id t)) as [He|He]; simpl.
    + rewrite decide_True by done. apply partially_updated_twice.
    + by rewrite decide_False.
Qed.

Lemma update_task_then_get_task_witness :
  get_task 1 alice
    (update_task 100 1 (TaskUpdate.mk None None (Some "high") None None)
                 alice sample).2
  = (Return (Task.mk 1 1 "write report" None "high" "pending" None 10 100),
     (update_task 100 1 (TaskUpdate.mk None None (Some "high") None None)
                  alice sample).2).
Proof.
  refine (proj1 (proj2 (update_task_then_get_task 100 sample report alice
                   (TaskUpdate.mk None None (Some "high") None None)
                   _ _ _ _ _))).
  - by_evaluation.
  - by_evaluation.
  - reflexivity.
  - by_inspection.
  - by_inspection.
Defined.

(** ** Requests that fail change no row *)

Lemma quiet_of_db_same {A} (model : A → option content) (h : handler A) :
  (∀ w, db (h w).2 = db w) → quiet_on_failure model h.
Proof.
  intros Hr w. rewrite Hr. destruct (h w).1; [right|]; by split.
Qed.

Lemma quiet_validated {A B} (model : B → option content) (parsed : option A)
    (k : A → handler B) :
  (∀ a, quiet_on_failure model (k a)) →
  quiet_on_failure model (validated parsed k).
Proof.
  intros Hk w. destruct parsed as [a|]; simpl; [apply Hk|by split].
Qed.

Lemma quiet_authenticated {A} (model : A → option content) mac now auth
    (k : User.row → handler A) :
  (∀ u, quiet_on_failure model (k u)) →
  quiet_on_failure model (authenticated mac now auth k).
Proof.
  intros Hk w.
  destruct (authenticated_outcome mac now auth k w) as [[e ->]|[u [_ ->]]];
    [by split|apply Hk].
Qed.

Lemma quiet_create_task now task u :
  quiet_on_failure (fmap TaskJson) (create_task now task u).
Proof.
  intros w.
  destruct (create_task_db now task u w)
    as [[[e ->] ->]|[([e ->] & _ & ->)|(r & -> & _)]];
    [by split|by split|left; by eexists].
Qed.

Lemma quiet_register hash now user :
  quiet_on_failure (fmap user_out) (register hash now user).
Proof.
  intros w.
  destruct (register_db hash now user w)
    as [[[e ->] ->]|[([e ->] & _ & ->)|(r & -> & _)]];
    [by split|by split|left; by eexists].
Qed.

Lemma quiet_update_task now task_id task_update u :
  quiet_on_failure (fmap TaskJson) (update_task now task_id task_update u).
Proof.
  intros w. unfold update_task, select_tasks, update_tasks. run.
  destruct (filter _ (tasks (db w))) eqn:Hsel; simpl; [by split|].
  destruct (all_adaptable _); simpl; [|by split].
  destruct (mapM coerce _); simpl; [|by split].
  rewrite Hsel. left. by eexists.
Qed.

Lemma quiet_delete_task task_id u :
  quiet_on_failure (λ _, Some Empty) (delete_task task_id u).
Proof.
  intros w. destruct (delete_task task_id u w).1 as [a|e] eqn:Hrun.
  - left. by eexists.
  - rewrite delete_task_raise by (by eexists). by split.
Qed.

Lemma failure_changes_no_row {A} (success : Z) (model : A → option content)
    (h : handler A) (w : world) :
  is_success success →
  quiet_on_failure model h →
  ¬ is_success (status_code (respond success model (h w).1)) →
  same_rows (db (h w).2) (db w).
Proof.
  intros Hs Hq Hfail. specialize (Hq w).
  destruct (h w).1 as [a|e]; [|done].
  destruct Hq as [[c Hc]|Hsame]; [|done].
  exfalso. apply Hfail. simpl. by rewrite Hc.
Qed.

(** X19. Only a request that is answered with its success status changes
    the rows of the tables: after any request answered otherwise (400, 401,
    404, 422 or 500), the stored users and the stored tasks are exactly as
    before. *)
Theorem failed_requests_change_no_row
    (get_password_hash : string → string)
    (verify_password : string → string → bool)
    (mac : string → string → payload → Z)
    (now : Z) (req : request) (w : world) :
  ¬ is_success
      (status_code (handle get_password_hash verify_password mac now req w).1) →
  users (db (handle get_password_hash verify_password mac now req w).2)
  = users (db w)
  ∧ tasks (db (handle get_password_hash verify_password mac now req w).2)
    = tasks (db w).
Proof.
  unfold handle.
  destruct req;
    match goal with
    | |- context [let (_, _) := ?h w in (respond ?code ?model _, _)] =>
        intros Hfail;
        assert (Hq : quiet_on_failure model h)
          by (eauto using quiet_register, quiet_authenticated, quiet_validated,
                quiet_create_task, quiet_update_task, quiet_delete_task
              || (apply quiet_of_db_same;
                  eauto using login_db, authenticated_db, get_tasks_db,
                    get_task_db, get_task_statistics_db, read_users_me_db));
        assert (Hs : is_success code) by (unfold is_success; tauto);
        pose proof (failure_changes_no_row code model h w Hs Hq) as Hsame;
        destruct (h w) as [r w']; simpl in *; by apply Hsame
    end.
Qed.

Lemma failed_requests_change_no_row_witness :
  users (db (handle toy_hash toy_verify toy_mac 100
               (POST_register (UserCreate.mk "new@example.org" "alice" "pw" None))
               sample).2) = users (db sample).
Proof.
  refine (proj1 (failed_requests_change_no_row toy_hash toy_verify toy_mac 100
           (POST_register (UserCreate.mk "new@example.org" "alice" "pw" None))
           sample _)).
  vm_compute. intros [H|[H|H]]; discriminate H.
Defined.

(** The id sequences are another matter.  A registration whose username is
    a stored username of 100 characters followed by a space passes the
    check of [register] (the strings differ), is cut to the stored username
    by [VARCHAR(100)] and then violates the UNIQUE constraint: the request
    is answered 500, no row is stored, but the id that the failed row had
    drawn is gone, and the connection stays open. *)
Lemma refused_registration_consumes_an_id :
  let long := User.mk 1 "long@example.org" (string_of 100 "a") None "#pw"
                      true 5 in
  let w := {| db := {| users := [long]; tasks := [];
                       users_id_seq := 1; tasks_id_seq := 0 |};
              conns := [] |} in
  toy_handle 100
    (POST_register (UserCreate.mk "other@example.org"
                                  (String.append (string_of 100 "a") " ")
                                  "pw" None)) w
  = (internal_server_error,
     {| db := with_users_id_seq (db w) 2; conns := [1%nat] |}).
Proof. vm_compute. reflexivity. Qed.
